(** * Pairwise distance pipeline of the notebook 11-Statistics.ipynb

    The notebook's own computation (cells "Step 6" to "Step 9" of Part I)
    takes the ROI masks of an imaging session, averages the pixel indices of
    every mask, fills the matrix of pairwise Euclidean distances with a
    double loop, and reads the strict upper triangle of that matrix and of
    the signal-correlation matrix through [np.triu_indices].

    Numbers are NumPy [float64] values, embedded as Rocq's primitive
    binary64 floats, whose operations are specified by [SpecFloat]; arrays
    are lists, updated in place by index; a Python exception is a value of
    the [py] monad. *)

From Stdlib Require Import ZArith Lia List Bool.
From Stdlib Require Import Floats Uint63.
From Stdlib Require Import Reals Lra.
From stdpp Require Import base list sorting strings.

Local Open Scope Z_scope.

(** ** Python exceptions *)

(** The only exception the modelled cells can raise is an out-of-range
    subscript. *)
Inductive exn : Set :=
| IndexError.

Inductive py (A : Type) : Type :=
| Ok (a : A)
| Raise (e : exn).
Arguments Ok {A} a.
Arguments Raise {A} e.

#[global] Instance py_ret : MRet py := fun _ a => Ok a.
#[global] Instance py_bind : MBind py := fun _ _ f c =>
  match c with
  | Ok a => f a
  | Raise e => Raise e
  end.

Definition raises {A} (c : py A) : Prop := exists e, c = Raise e.

(** [for i in l: s = body(i, s)] *)
Fixpoint for_in {S : Type} (l : list nat) (body : nat -> S -> py S) (s : S) : py S :=
  match l with
  | [] => Ok s
  | i :: l' => s' ← body i s; for_in l' body s'
  end.

(** [for i in range(n)] *)
Definition for_range {S : Type} (n : nat) (body : nat -> S -> py S) (s : S) : py S :=
  for_in (seq 0 n) body s.

(** ** Arrays *)

(** [a[i]] for a non-negative subscript. *)
Definition getitem {A} (a : list A) (i : nat) : py A :=
  match a !! i with
  | Some v => Ok v
  | None => Raise IndexError
  end.

(** [a[i] = v] *)
Definition setitem {A} (a : list A) (i : nat) (v : A) : py (list A) :=
  if decide (i < length a)%nat then Ok (<[i := v]> a) else Raise IndexError.

(** [a[i, j]] and [a[i, j] = v] on a two-dimensional array. *)
Definition getitem2 {A} (a : list (list A)) (i j : nat) : py A :=
  row ← getitem a i; getitem row j.

Definition setitem2 {A} (a : list (list A)) (i j : nat) (v : A) : py (list (list A)) :=
  row ← getitem a i; row' ← setitem row j v; setitem a i row'.

(** ** The NumPy functions the cells call *)

(** Conversion of an integer in [0, 2^63), and of an index ([intp]), to
    [float64], rounding to nearest. *)
Definition of_Z (z : Z) : float := PrimFloat.of_uint63 (Uint63.of_Z z).
Definition of_intp (n : nat) : float := of_Z (Z.of_nat n).

(** [np.zeros(n)] and [np.zeros((n, m))] *)
Definition np_zeros (n : nat) : list float := replicate n 0%float.
Definition np_zeros2 (n m : nat) : list (list float) := replicate n (np_zeros m).

(** A mask is a two-dimensional boolean array. *)
Abbreviation mask := (list (list bool)).

(** The positions of the true entries of one row, left to right. *)
Definition nonzero_row (r : nat) (row : list bool) : list (nat * nat) :=
  concat (imap (fun c (b : bool) => if b then [(r, c)] else []) row).

(** [np.where(m)] with a single argument is [np.nonzero(m)]: the row indices
    and the column indices of the true entries, in row-major order. *)
Definition np_where (m : mask) : list nat * list nat :=
  let pos := concat (imap nonzero_row m) in
  (pos.*1, pos.*2).

(** [np.mean] of an integer array: the elements are added up as [float64]
    and the sum is divided by the element count.  Of an empty array it is
    [0.0 / 0], that is NaN (NumPy only warns).  The sum is taken left to
    right here; NumPy adds in blocks, which gives the same float as long as
    the partial sums are integers below [2^53] ([np_mean_exact]). *)
Definition np_mean (a : list nat) : float :=
  (fold_left (fun acc v => acc + of_intp v) a 0 / of_intp (length a))%float.

(** [x ** 2] on a [float64] scalar, taken as the rounded product. *)
Definition pow2 (x : float) : float := (x * x)%float.

(** [np.arange(a, b)] *)
Definition arange (a b : Z) : list Z :=
  map (fun t => a + Z.of_nat t) (seq 0 (Z.to_nat (b - a))).

(** [np.tri(N, M, k, dtype=bool)] is
    [greater_equal.outer(arange(N), arange(-k, M - k))]. *)
Definition tri (N M : nat) (k : Z) : list (list bool) :=
  map (fun i => map (fun j => j <=? i) (arange (- k) (Z.of_nat M - k)))
      (arange 0 (Z.of_nat N)).

(** [~a] on a boolean matrix. *)
Definition invert (a : list (list bool)) : list (list bool) := map (map negb) a.

(** [vals[mask]] with a boolean matrix of the same shape: the selected
    entries in row-major order. *)
Definition select_row {A} (vs : list A) (bs : list bool) : list A :=
  concat (zip_with (fun v (b : bool) => if b then [v] else []) vs bs).

Definition mask_select {A} (vals : list (list A)) (m : list (list bool)) : list A :=
  concat (zip_with select_row vals m).

(** [np.indices((n, m), sparse=True)], each broadcast to the shape [(n, m)]. *)
Definition indices_rows (n m : nat) : list (list nat) := map (replicate m) (seq 0 n).
Definition indices_cols (n m : nat) : list (list nat) := replicate n (seq 0 m).

(** [np.triu_indices(n, k)] *)
Definition triu_indices (n : nat) (k : Z) : list nat * list nat :=
  let tri_ := invert (tri n n (k - 1)) in
  (mask_select (indices_rows n n) tri_, mask_select (indices_cols n n) tri_).

(** [a[rows, cols]] with two index arrays: they must have one shape, and
    every pair must lie inside [a]. *)
Fixpoint take_pairs {A} (a : list (list A)) (rows cols : list nat) : py (list A) :=
  match rows, cols with
  | [], [] => Ok []
  | r :: rows', c :: cols' =>
      v ← getitem2 a r c; vs ← take_pairs a rows' cols'; mret (v :: vs)
  | _, _ => Raise IndexError
  end.

(** ** The notebook cells *)

(** Step 6, first loop: the centroid coordinates [loc_x] (mean column index)
    and [loc_y] (mean row index) of every ROI mask. *)
Definition centroid_loop (rois : list mask) : py (list float * list float) :=
  let num_cells := length rois in
  for_range num_cells
    (fun i '(loc_x, loc_y) =>
       roi ← getitem rois i;
       let ind := np_where roi in
       loc_x ← setitem loc_x i (np_mean ind.2);
       loc_y ← setitem loc_y i (np_mean ind.1);
       mret (loc_x, loc_y))
    (np_zeros num_cells, np_zeros num_cells).

(** The expression assigned to [distance[i, j]]. *)
Definition euclid (xi xj yi yj : float) : float :=
  PrimFloat.sqrt (pow2 (xi - xj) + pow2 (yi - yj))%float.

(** Step 6, second loop: the distance matrix. *)
Definition distance_loop (num_cells : nat) (loc_x loc_y : list float)
  : py (list (list float)) :=
  for_range num_cells
    (fun i distance =>
       for_range num_cells
         (fun j distance =>
            xi ← getitem loc_x i; xj ← getitem loc_x j;
            yi ← getitem loc_y i; yj ← getitem loc_y j;
            setitem2 distance i j (euclid xi xj yi yj))
         distance)
    (np_zeros2 num_cells num_cells).

(** The whole of Step 6. *)
Definition step6 (rois : list mask) : py (list float * list float * list (list float)) :=
  '(loc_x, loc_y) ← centroid_loop rois;
  distance ← distance_loop (length rois) loc_x loc_y;
  mret (loc_x, loc_y, distance).

(** Steps 8 and 9: [inds = np.triu_indices(num_cells, k=1)] and
    [a[inds[0], inds[1]]], applied to [distance] and to [sc]. *)
Definition flatten_upper {A} (num_cells : nat) (a : list (list A)) : py (list A) :=
  let inds := triu_indices num_cells 1 in
  take_pairs a inds.1 inds.2.

(** ** Vocabulary of the statements *)

(** Entry [(i, j)] of a matrix, when it exists. *)
Definition entry {A} (a : list (list A)) (i j : nat) : option A :=
  a !! i ≫= fun row => row !! j.

(** An [n] by [m] matrix. *)
Definition shape {A} (n m : nat) (a : list (list A)) : Prop :=
  length a = n /\ forall row, row ∈ a -> length row = m.

(** The positions above the diagonal of an [n] by [n] matrix, row by row. *)
Definition upper_pairs (n : nat) : list (nat * nat) :=
  seq 0 n ≫= fun i => pair i <$> seq (S i) (n - S i).

(** Row-major order on positions. *)
Definition row_major_lt (p q : nat * nat) : Prop :=
  (p.1 < q.1)%nat \/ (p.1 = q.1 /\ (p.2 < q.2)%nat).

(** Test matrices of the index-pairing property: entry [(i, j)] is
    [off + i * n + j]. *)
Definition ramp (n : nat) (off : Z) : list (list Z) :=
  (fun i => (fun j => off + Z.of_nat i * Z.of_nat n + Z.of_nat j) <$> seq 0 n) <$> seq 0 n.

(** *** Masks *)

(** The sum of [f r c] over the true entries [(r, c)] of a mask. *)
Definition sum_true (f : nat -> nat -> nat) (m : mask) : nat :=
  sum_list (imap (fun r row =>
              sum_list (imap (fun c (b : bool) => if b then f r c else 0%nat) row)) m).

(** The number of true entries, and the sums of their row indices and of
    their column indices. *)
Definition count_true (m : mask) : nat := sum_true (fun _ _ => 1%nat) m.
Definition row_index_sum (m : mask) : nat := sum_true (fun r _ => r) m.
Definition col_index_sum (m : mask) : nat := sum_true (fun _ c => c) m.

(** The mean of integers with sum [s] and count [n]: the exact sum divided
    by the exact count, rounded once to binary64. *)
Definition mean_of (s n : nat) : float := (of_Z (Z.of_nat s) / of_Z (Z.of_nat n))%float.

(** A mask with at least one true entry. *)
Definition nonempty (m : mask) : Prop := exists r c, entry m r c = Some true.

(** The pixel count and the index sums of the mask are integers that
    binary64 holds exactly: they are below [2^53].  Every mask of an image
    of up to [2^17] by [2^17] pixels is such ([shape_fits_binary64]). *)
Definition fits_binary64 (m : mask) : Prop :=
  Z.of_nat (count_true m) < 2 ^ 53 /\
  Z.of_nat (row_index_sum m) < 2 ^ 53 /\
  Z.of_nat (col_index_sum m) < 2 ^ 53.

Definition valid_mask (m : mask) : Prop := nonempty m /\ fits_binary64 m.

(** The mask of height [h] and width [w] whose true entries are [pixels]. *)
Definition pixel_mask (h w : nat) (pixels : list (nat * nat)) : mask :=
  (fun r => (fun c => existsb (fun p => Nat.eqb p.1 r && Nat.eqb p.2 c) pixels) <$> seq 0 w)
    <$> seq 0 h.

(** *** Binary64 values *)

(** Shifting a positive number left, bit by bit. *)
Definition pshl (p : positive) (k : nat) : positive := Nat.iter k xO p.

(** The binary64 representation of a positive integer below [2^53]. *)
Definition canon (p : positive) : spec_float :=
  let d := Z.pos (digits2_pos p) in
  S754_finite false (pshl p (Z.to_nat (53 - d))) (d - 53).

(** The value of an integer in [0, 2^53), which binary64 holds exactly. *)
Definition Z2SF (z : Z) : spec_float :=
  match z with
  | Z0 => S754_zero false
  | Z.pos p => canon p
  | Z.neg _ => S754_nan
  end.

(** The sign bit of a number; NaN has none. *)
Definition sign_of (x : spec_float) : option bool :=
  match x with
  | S754_nan => None
  | S754_zero s | S754_infinity s | S754_finite s _ _ => Some s
  end.

(** A zero or a finite non-zero number. *)
Definition SFfinite (x : spec_float) : bool :=
  match x with
  | S754_zero _ | S754_finite _ _ _ => true
  | _ => false
  end.

(** Neither NaN nor an infinity. *)
Definition finite64 (x : float) : bool := SFfinite (Prim2SF x).

(** Not NaN, sign bit clear: [+0], a positive number or [+inf]. *)
Definition nonneg64 (x : float) : Prop := sign_of (Prim2SF x) = Some false.

(** *** Exact arithmetic *)


(** ** The cells, composed *)

(** Step 8, from the masks: [distance_vector], the upper triangle of the
    distance matrix of Step 6. *)
Definition distance_vector (rois : list mask) : py (list float) :=
  '(_, _, distance) ← step6 rois;
  flatten_upper (length rois) distance.

(** ** Part II: choosing the recording session *)



Section Sessions.
(** The entries of a structure list, compared with [==]. *)
Context {A : Type} `{EqDecision A}.




End Sessions.

(** ** Part II: the lag axis of the correlogram *)

(** Conversion of a Python int of magnitude below [2^63] to [float64]. *)
Definition of_int (z : Z) : float := if z <? 0 then (- of_Z (- z))%float else of_Z z.

(** [a / b] on two Python ints that [float64] holds exactly (magnitude up to
    [2^53]): the quotient of the two floats. *)
Definition int_truediv (a b : Z) : float := (of_int a / of_int b)%float.

(** The errors [np.arange] can raise while it computes its length. *)
Inductive arange_error : Set :=
| ZeroDivisionError
| ValueError
| OverflowError.

(** The ceiling of a binary64 number; NaN and the infinities have none. *)
Definition SFceil (x : spec_float) : option Z :=
  match x with
  | S754_zero _ => Some 0
  | S754_finite s m e =>
      Some match e with
           | Z.neg k => - ((- cond_Zopp s (Z.pos m)) / 2 ^ Z.pos k)
           | _ => cond_Zopp s (Z.pos m) * 2 ^ e
           end
  | S754_infinity _ | S754_nan => None
  end.

(** [np.arange(start, stop, step)] on floats.  The length is
    [ceil((stop - start) / step)], checked to be a number in the range of
    [intp]; the first two elements are [start] and [start + step], and
    element [i >= 2] is [start + i * delta] with [delta] the difference of
    the first two. *)
Definition np_arange (start stop step : float) : arange_error + list float :=
  if (step =? 0)%float then inl ZeroDivisionError else
  match Prim2SF ((stop - start) / step) with
  | S754_nan => inl ValueError
  | v =>
      match SFceil v with
      | None => inl OverflowError
      | Some len =>
          if (len <? - 2 ^ 63) || (2 ^ 63 <? len) then inl OverflowError else
          let next := (start + step)%float in
          let delta := (next - start)%float in
          inr ((fun i => match i with
                         | O => start
                         | S O => next
                         | _ => (start + of_intp i * delta)%float
                         end) <$> seq 0 (Z.to_nat len))
      end
  end.

(** [time_shift_drift = np.arange(-len(xcorr_drift)/2, len(xcorr_drift)/2, 1)] *)
Definition time_shift (len_xcorr : nat) : arange_error + list float :=
  np_arange (int_truediv (- Z.of_nat len_xcorr) 2) (int_truediv (Z.of_nat len_xcorr) 2) 1.


(** ** Magnitudes *)

(** A zero, or a finite number of absolute value below [2 ^ mu]. *)
Definition SFbelow (mu : Z) (x : spec_float) : Prop :=
  match x with
  | S754_zero _ => True
  | S754_finite _ m e => Z.pos (digits2_pos m) + e <= mu
  | _ => False
  end.

Definition below (mu : Z) (x : float) : Prop := SFbelow mu (Prim2SF x).

(** * Proofs *)

(** ** Loops *)

(** [read_at l i x H]: the element [x] at an index [i] that is in range. *)
Ltac read_at l i x H :=
  destruct (lookup_lt_is_Some_2 l i) as [x H]; [lia|].

Lemma for_in_seq_inv {S : Type} (P : nat -> S -> Prop) (body : nat -> S -> py S) :
  forall (len start : nat) (s : S),
    P start s ->
    (forall k t, (start <= k < start + len)%nat -> P k t ->
                 exists t', body k t = Ok t' /\ P (Datatypes.S k) t') ->
    exists s', for_in (seq start len) body s = Ok s' /\ P (start + len)%nat s'.
Proof.
  induction len as [|len IH]; intros start s H0 Hstep; simpl.
  - exists s. rewrite Nat.add_0_r. auto.
  - destruct (Hstep start s) as (t' & Hb & Ht'); [lia | assumption |].
    rewrite Hb. simpl.
    destruct (IH (Datatypes.S start) t') as (s' & Hs' & HP); [assumption | |].
    + intros k t Hk. apply Hstep. lia.
    + exists s'. split; [assumption|].
      replace (start + Datatypes.S len)%nat with (Datatypes.S start + len)%nat by lia.
      assumption.
Qed.

Lemma for_range_inv {S : Type} (P : nat -> S -> Prop) (body : nat -> S -> py S)
    (n : nat) (s : S) :
  P 0%nat s ->
  (forall k t, (k < n)%nat -> P k t -> exists t', body k t = Ok t' /\ P (Datatypes.S k) t') ->
  exists s', for_range n body s = Ok s' /\ P n s'.
Proof.
  intros H0 Hstep.
  destruct (for_in_seq_inv P body n 0%nat s H0) as (s' & Hs & HP).
  - intros k t Hk. apply Hstep. lia.
  - exists s'. split; assumption.
Qed.

Lemma getitem_Some {A} (a : list A) i v : a !! i = Some v -> getitem a i = Ok v.
Proof. unfold getitem. intros ->. reflexivity. Qed.

Lemma setitem_lt {A} (a : list A) i v :
  (i < length a)%nat -> setitem a i v = Ok (<[i := v]> a).
Proof. unfold setitem. intros H. destruct (decide (i < length a)%nat); [reflexivity | lia]. Qed.

Lemma shape_zeros2 n m : shape n m (np_zeros2 n m).
Proof.
  split.
  - apply length_replicate.
  - intros row Hin. apply elem_of_replicate in Hin as [-> _]. apply length_replicate.
Qed.

Lemma shape_row {A} n m (a : list (list A)) i :
  shape n m a -> (i < n)%nat -> exists row, a !! i = Some row /\ length row = m.
Proof.
  intros [Hn Hm] Hi.
  read_at a i row Hrow.
  exists row. split; [assumption|]. apply Hm. eapply list_elem_of_lookup_2; eauto.
Qed.

Lemma setitem2_spec {A} n m (a : list (list A)) i j v :
  shape n m a -> (i < n)%nat -> (j < m)%nat ->
  exists a', setitem2 a i j v = Ok a' /\ shape n m a' /\
             entry a' i j = Some v /\
             forall i' j', (i', j') <> (i, j) -> entry a' i' j' = entry a i' j'.
Proof.
  intros Hsh Hi Hj.
  destruct (shape_row n m a i Hsh Hi) as (row & Hrow & Hlen).
  destruct Hsh as [Hn Hm].
  unfold setitem2. rewrite (getitem_Some _ _ _ Hrow). simpl.
  rewrite setitem_lt by lia. simpl. rewrite setitem_lt by lia.
  eexists. split; [reflexivity|]. split; [|split].
  - split.
    + rewrite length_insert. assumption.
    + intros r Hr. apply list_elem_of_lookup in Hr as [t Ht].
      destruct (decide (t = i)) as [->|Hne].
      * rewrite list_lookup_insert_eq in Ht by lia. injection Ht as <-.
        rewrite length_insert. assumption.
      * rewrite list_lookup_insert_ne in Ht by auto.
        apply Hm. eapply list_elem_of_lookup_2; eauto.
  - unfold entry. rewrite list_lookup_insert_eq by lia. simpl.
    apply list_lookup_insert_eq. lia.
  - intros i' j' Hne. unfold entry.
    destruct (decide (i' = i)) as [->|Hi'].
    + rewrite list_lookup_insert_eq by lia. rewrite Hrow. simpl.
      apply list_lookup_insert_ne. congruence.
    + rewrite list_lookup_insert_ne by auto. reflexivity.
Qed.

(** What the two loops of [distance_loop] leave in the matrix. *)
Lemma distance_loop_spec (n : nat) (lx ly : list float) :
  length lx = n -> length ly = n ->
  exists d, distance_loop n lx ly = Ok d /\ shape n n d /\
    forall i j xi xj yi yj,
      lx !! i = Some xi -> lx !! j = Some xj ->
      ly !! i = Some yi -> ly !! j = Some yj ->
      entry d i j = Some (euclid xi xj yi yj).
Proof.
  intros Hlx Hly.
  set (filled (d : list (list float)) (i j : nat) :=
         forall xi xj yi yj,
           lx !! i = Some xi -> lx !! j = Some xj ->
           ly !! i = Some yi -> ly !! j = Some yj ->
           entry d i j = Some (euclid xi xj yi yj)).
  pose (P := fun (k : nat) (d : list (list float)) =>
               shape n n d /\ forall i j, (i < k)%nat -> (j < n)%nat -> filled d i j).
  destruct (for_range_inv P
              (fun i distance =>
                 for_range n
                   (fun j distance =>
                      xi ← getitem lx i; xj ← getitem lx j;
                      yi ← getitem ly i; yj ← getitem ly j;
                      setitem2 distance i j (euclid xi xj yi yj))
                   distance)
              n (np_zeros2 n n)) as (d & Hd & Hsh & Hfill).
  - split; [apply shape_zeros2 | intros; lia].
  - intros i d Hi [Hsh Hrows].
    pose (Q := fun (k : nat) (d' : list (list float)) =>
                 shape n n d' /\
                 (forall i' j, (i' < i)%nat -> (j < n)%nat -> filled d' i' j) /\
                 (forall j, (j < k)%nat -> filled d' i j)).
    destruct (for_range_inv Q
                (fun j distance =>
                   xi ← getitem lx i; xj ← getitem lx j;
                   yi ← getitem ly i; yj ← getitem ly j;
                   setitem2 distance i j (euclid xi xj yi yj))
                n d) as (d' & Hd' & Hsh' & Hrows' & Hrow').
    + repeat split; try apply Hsh; auto. intros; lia.
    + intros j e Hj (Hshe & Hre & Hce).
      read_at lx i xi Hxi.
      read_at lx j xj Hxj.
      read_at ly i yi Hyi.
      read_at ly j yj Hyj.
      rewrite (getitem_Some _ _ _ Hxi). simpl.
      rewrite (getitem_Some _ _ _ Hxj). simpl.
      rewrite (getitem_Some _ _ _ Hyi). simpl.
      rewrite (getitem_Some _ _ _ Hyj). simpl.
      destruct (setitem2_spec n n e i j (euclid xi xj yi yj) Hshe Hi Hj)
        as (e' & He' & Hshe' & Hnew & Hold).
      exists e'. split; [assumption|]. split; [assumption|]. split.
      * intros i' j' Hi' Hj' a b c d0 H1 H2 H3 H4.
        rewrite Hold by (intros [= -> ->]; lia). eapply Hre; eauto.
      * intros j' Hj' a b c d0 H1 H2 H3 H4.
        destruct (decide (j' = j)) as [->|Hne].
        -- rewrite Hnew. congruence.
        -- rewrite Hold by (intros [= ->]; lia). eapply Hce; eauto. lia.
    + exists d'. split; [assumption|]. split; [assumption|].
      intros i' j Hi' Hj. destruct (decide (i' = i)) as [->|Hne].
      * apply Hrow'. assumption.
      * apply Hrows'; [lia | assumption].
  - exists d. split; [assumption|]. split; [assumption|].
    intros i j xi xj yi yj Hxi Hxj Hyi Hyj.
    apply lookup_lt_Some in Hxi as Hi. apply lookup_lt_Some in Hxj as Hj.
    eapply Hfill; eauto; lia.
Qed.

(** What the loop of [centroid_loop] leaves in [loc_x] and [loc_y]. *)
Lemma centroid_loop_spec (rois : list mask) :
  exists lx ly, centroid_loop rois = Ok (lx, ly) /\
    length lx = length rois /\ length ly = length rois /\
    forall i m, rois !! i = Some m ->
      lx !! i = Some (np_mean (np_where m).2) /\
      ly !! i = Some (np_mean (np_where m).1).
Proof.
  set (n := length rois).
  pose (P := fun (k : nat) (s : list float * list float) =>
               length s.1 = n /\ length s.2 = n /\
               forall i m, (i < k)%nat -> rois !! i = Some m ->
                 s.1 !! i = Some (np_mean (np_where m).2) /\
                 s.2 !! i = Some (np_mean (np_where m).1)).
  destruct (for_range_inv P
              (fun i '(loc_x, loc_y) =>
                 roi ← getitem rois i;
                 let ind := np_where roi in
                 loc_x ← setitem loc_x i (np_mean ind.2);
                 loc_y ← setitem loc_y i (np_mean ind.1);
                 mret (loc_x, loc_y))
              n (np_zeros n, np_zeros n)) as ([lx ly] & Hrun & Hlx & Hly & Hval).
  - unfold P, np_zeros. simpl. rewrite !length_replicate. repeat split; intros; lia.
  - intros k [lx ly] Hk (Hlx & Hly & Hval). simpl in Hlx, Hly, Hval.
    destruct (lookup_lt_is_Some_2 rois k) as [roi Hroi]; [fold n; lia|].
    rewrite (getitem_Some _ _ _ Hroi). simpl.
    rewrite setitem_lt by lia. simpl. rewrite setitem_lt by lia. simpl.
    eexists. split; [reflexivity|]. unfold P. simpl.
    rewrite !length_insert. split; [assumption|]. split; [assumption|].
    intros i m Hi Him. destruct (decide (i = k)) as [->|Hne].
    + rewrite !list_lookup_insert_eq by lia.
      rewrite Hroi in Him. injection Him as ->. split; reflexivity.
    + rewrite !list_lookup_insert_ne by auto. apply Hval; [lia | assumption].
  - exists lx, ly. split; [exact Hrun|]. simpl in Hlx, Hly, Hval.
    split; [assumption|]. split; [assumption|].
    intros i m Him. apply Hval; [|assumption].
    apply lookup_lt_Some in Him. fold n in Him. lia.
Qed.

(** ** The upper-triangular index arrays *)

Lemma arange_0 (n : nat) : arange 0 (Z.of_nat n) = Z.of_nat <$> seq 0 n.
Proof.
  unfold arange. rewrite Z.sub_0_r, Nat2Z.id. apply list_fmap_ext.
  intros _ t _. lia.
Qed.

Lemma select_row_false {A} (vs : list A) (bs : list bool) :
  Forall (fun b => b = false) bs -> select_row vs bs = [].
Proof.
  unfold select_row. intros H. revert vs.
  induction H as [|b bs -> _ IH]; intros [|v vs]; simpl; auto.
Qed.

Lemma select_row_true {A} (vs : list A) (bs : list bool) :
  length vs = length bs -> Forall (fun b => b = true) bs -> select_row vs bs = vs.
Proof.
  unfold select_row. intros Hlen H. revert vs Hlen.
  induction H as [|b bs -> _ IH]; intros [|v vs] Hlen; simpl in *; try lia; auto.
  f_equal. apply IH. lia.
Qed.

Lemma select_row_app {A} (vs1 vs2 : list A) (bs1 bs2 : list bool) :
  length vs1 = length bs1 ->
  select_row (vs1 ++ vs2) (bs1 ++ bs2) = select_row vs1 bs1 ++ select_row vs2 bs2.
Proof.
  intros Hlen. unfold select_row. rewrite zip_with_app by assumption.
  apply concat_app.
Qed.

(** Row [i] of the inverted triangle selects the columns after [i]. *)
Lemma select_row_upper {A} (g : nat -> A) (n i : nat) :
  (i < n)%nat ->
  select_row (g <$> seq 0 n)
             ((fun j => negb (Z.of_nat j <=? Z.of_nat i)) <$> seq 0 n)
  = g <$> seq (S i) (n - S i).
Proof.
  intros Hi.
  replace n with (S i + (n - S i))%nat at 1 2 by lia.
  rewrite seq_app, !fmap_app. rewrite select_row_app by (rewrite !length_fmap; reflexivity).
  rewrite select_row_false, select_row_true; [reflexivity | | |].
  - rewrite !length_fmap. reflexivity.
  - apply Forall_fmap, Forall_forall. intros j Hj. apply elem_of_seq in Hj. simpl.
    apply negb_true_iff, Z.leb_gt. lia.
  - apply Forall_fmap, Forall_forall. intros j Hj. apply elem_of_seq in Hj. simpl.
    apply negb_false_iff, Z.leb_le. lia.
Qed.

Lemma mask_select_rows {A} (g : nat -> nat -> A) (n : nat) :
  mask_select ((fun i => g i <$> seq 0 n) <$> seq 0 n) (invert (tri n n 0))
  = seq 0 n ≫= fun i => g i <$> seq (S i) (n - S i).
Proof.
  unfold mask_select, invert, tri. rewrite Z.sub_0_r. change (- 0) with 0.
  rewrite !arange_0.
  rewrite <- !list_fmap_compose.
  rewrite zip_with_fmap_l, zip_with_fmap_r, zip_with_diag.
  assert (Hn : forall i, i ∈ seq 0 n -> (i < n)%nat)
    by (intros i Hi; apply elem_of_seq in Hi; lia).
  revert Hn. 
  generalize (seq 0 n) at 1 4 5 as l.
  induction l as [|i l IH]; intros Hn; [reflexivity|].
  csimpl. f_equal.
  - unfold compose. change (map negb (map ?f ?l)) with (negb <$> (f <$> l)).
    rewrite <- !list_fmap_compose.
    apply (select_row_upper (g i)). apply Hn. left.
  - apply IH. intros; apply Hn; right; assumption.
Qed.

Lemma fmap_list_bind {A B C} (f : B -> C) (g : A -> list B) (l : list A) :
  f <$> (l ≫= g) = l ≫= fun x => f <$> g x.
Proof.
  induction l as [|x l IH]; [reflexivity|].
  csimpl. rewrite fmap_app, IH. reflexivity.
Qed.

Lemma triu_indices_1 (n : nat) :
  triu_indices n 1 = ((upper_pairs n).*1, (upper_pairs n).*2).
Proof.
  unfold triu_indices, upper_pairs. change (1 - 1) with 0.
  rewrite !fmap_list_bind. f_equal.
  - unfold indices_rows.
    replace (map (replicate n) (seq 0 n))
      with ((fun i => (fun _ => i) <$> seq 0 n) <$> seq 0 n).
    + rewrite (mask_select_rows (fun i _ => i)).
      apply list_bind_ext; [|reflexivity].
      intros i. rewrite <- list_fmap_compose. reflexivity.
    + apply list_fmap_ext. intros _ i _.
      rewrite (const_fmap _ _ i) by reflexivity. rewrite length_seq. reflexivity.
  - unfold indices_cols.
    replace (replicate n (seq 0 n))
      with ((fun _ => (fun j => j) <$> seq 0 n) <$> seq 0 n).
    + rewrite (mask_select_rows (fun _ j => j)).
      apply list_bind_ext; [|reflexivity].
      intros i. rewrite <- list_fmap_compose. reflexivity.
    + rewrite list_fmap_id.
      rewrite (const_fmap _ _ (seq 0 n)) by reflexivity. rewrite length_seq. reflexivity.
Qed.

Lemma elem_of_upper_pairs (n i j : nat) : (i, j) ∈ upper_pairs n <-> (i < j < n)%nat.
Proof.
  unfold upper_pairs. rewrite list_elem_of_bind. split.
  - intros (i' & Hrow & Hi'). apply list_elem_of_fmap in Hrow as (j' & [= -> ->] & Hj').
    apply elem_of_seq in Hj'. lia.
  - intros Hij. exists i. split.
    + apply list_elem_of_fmap. exists j. split; [reflexivity|]. apply elem_of_seq. lia.
    + apply elem_of_seq. lia.
Qed.

Lemma StronglySorted_seq (s len : nat) : StronglySorted lt (seq s len).
Proof.
  revert s. induction len as [|len IH]; intros s; simpl; constructor; [apply IH|].
  apply Forall_forall. intros k Hk. apply elem_of_seq in Hk. lia.
Qed.

Lemma upper_pairs_sorted (n : nat) : StronglySorted row_major_lt (upper_pairs n).
Proof.
  unfold upper_pairs. generalize (StronglySorted_seq 0 n).
  generalize (seq 0 n) as l. induction l as [|i l IH]; intros Hl; csimpl; [constructor|].
  apply StronglySorted_cons in Hl as [Hi Hl].
  apply StronglySorted_app_2.
  - intros p q Hp Hq.
    apply list_elem_of_fmap in Hp as (j & -> & _).
    apply list_elem_of_bind in Hq as (i' & Hq & Hi').
    apply list_elem_of_fmap in Hq as (j' & -> & _).
    left. simpl. rewrite Forall_forall in Hi. apply Hi. assumption.
  - apply (StronglySorted_fmap _ lt); [|apply StronglySorted_seq].
    intros x y Hxy. right. simpl. auto.
  - apply IH. assumption.
Qed.

Lemma sorted_NoDup {A} (R : relation A) (l : list A) :
  (forall x, ~ R x x) -> StronglySorted R l -> NoDup l.
Proof.
  intros Hirr. induction 1 as [|x l _ IH Hx]; constructor; [|assumption].
  intros Hin. rewrite Forall_forall in Hx. exact (Hirr x (Hx x Hin)).
Qed.

Lemma NoDup_upper_pairs (n : nat) : NoDup (upper_pairs n).
Proof.
  apply (sorted_NoDup row_major_lt); [|apply upper_pairs_sorted].
  intros [i j] [H | [_ H]]; simpl in H; lia.
Qed.

Lemma length_upper_rows (n len s : nat) :
  (s + len = n)%nat ->
  (2 * length (seq s len ≫= fun i => pair i <$> seq (S i) (n - S i)) = len * (len - 1))%nat.
Proof.
  revert s. induction len as [|len IH]; intros s Hs; [reflexivity|].
  csimpl. rewrite length_app, length_fmap, length_seq.
  specialize (IH (S s)). nia.
Qed.

Lemma length_upper_pairs (n : nat) : length (upper_pairs n) = (n * (n - 1) / 2)%nat.
Proof.
  pose proof (length_upper_rows n n 0 eq_refl) as H. fold (upper_pairs n) in H.
  rewrite <- H, Nat.mul_comm. symmetry. apply Nat.div_mul. discriminate.
Qed.

(** ** Indexing with the two index arrays *)

Lemma getitem2_entry {A} (a : list (list A)) i j v :
  entry a i j = Some v -> getitem2 a i j = Ok v.
Proof.
  unfold entry, getitem2, getitem. destruct (a !! i) as [row|]; simpl; [|discriminate].
  intros ->. reflexivity.
Qed.

Lemma shape_entry {A} n m (a : list (list A)) i j :
  shape n m a -> (i < n)%nat -> (j < m)%nat -> is_Some (entry a i j).
Proof.
  intros Hsh Hi Hj. destruct (shape_row n m a i Hsh Hi) as (row & Hrow & Hlen).
  unfold entry. rewrite Hrow. simpl. apply lookup_lt_is_Some_2. lia.
Qed.

Lemma take_pairs_spec {A} (a : list (list A)) (ps : list (nat * nat)) :
  (forall p, p ∈ ps -> is_Some (entry a p.1 p.2)) ->
  exists l, take_pairs a ps.*1 ps.*2 = Ok l /\
            Forall2 (fun p v => entry a p.1 p.2 = Some v) ps l.
Proof.
  induction ps as [|p ps IH]; intros Hps.
  - exists []. split; [reflexivity | constructor].
  - destruct (Hps p) as [v Hv]; [left|].
    destruct IH as (l & Hl & Hall); [intros q Hq; apply Hps; right; assumption|].
    exists (v :: l). split.
    + csimpl. rewrite (getitem2_entry _ _ _ _ Hv). simpl. rewrite Hl. reflexivity.
    + constructor; assumption.
Qed.

Lemma flatten_upper_spec {A} (n : nat) (a : list (list A)) :
  shape n n a ->
  exists l, flatten_upper n a = Ok l /\
            Forall2 (fun p v => entry a p.1 p.2 = Some v) (upper_pairs n) l.
Proof.
  intros Hsh. unfold flatten_upper. rewrite triu_indices_1. simpl.
  apply take_pairs_spec. intros [i j] Hp. apply elem_of_upper_pairs in Hp.
  apply (shape_entry n n); simpl; [assumption | lia | lia].
Qed.

Lemma shape_Forall {A} n m (a : list (list A)) :
  length a = n /\ Forall (fun row => length row = m) a -> shape n m a.
Proof. intros [Hn Hm]. split; [assumption|]. apply Forall_forall. assumption. Qed.

Lemma shape_ramp (n : nat) (off : Z) : shape n n (ramp n off).
Proof.
  unfold ramp. split.
  - rewrite length_fmap. apply length_seq.
  - intros row Hrow. apply list_elem_of_fmap in Hrow as (i & -> & _).
    rewrite length_fmap. apply length_seq.
Qed.

Lemma entry_ramp (n : nat) (off : Z) (i j : nat) (v : Z) :
  entry (ramp n off) i j = Some v -> v = off + Z.of_nat i * Z.of_nat n + Z.of_nat j.
Proof.
  unfold entry, ramp. rewrite list_lookup_fmap.
  destruct (seq 0 n !! i) as [i'|] eqn:Hi; simpl; [|discriminate].
  apply lookup_seq in Hi as [-> _].
  rewrite list_lookup_fmap.
  destruct (seq 0 n !! j) as [j'|] eqn:Hj; simpl; [|discriminate].
  apply lookup_seq in Hj as [-> _]. intros [= <-]. reflexivity.
Qed.

(** Two matrices of one shape are read at the same positions, in the same
    order. *)
Lemma flatten_upper_paired {A B} (n : nat) (a : list (list A)) (b : list (list B)) :
  shape n n a -> shape n n b ->
  exists la lb, flatten_upper n a = Ok la /\ flatten_upper n b = Ok lb /\
    length la = length lb /\
    forall k va vb, la !! k = Some va -> lb !! k = Some vb ->
      exists i j, upper_pairs n !! k = Some (i, j) /\
                  entry a i j = Some va /\ entry b i j = Some vb.
Proof.
  intros Ha Hb.
  destruct (flatten_upper_spec n a Ha) as (la & Hla & Hpa).
  destruct (flatten_upper_spec n b Hb) as (lb & Hlb & Hpb).
  exists la, lb. split; [assumption|]. split; [assumption|]. split.
  - apply Forall2_length in Hpa, Hpb. congruence.
  - intros k va vb Hva Hvb.
    destruct (Forall2_lookup_r _ _ _ _ _ Hpa Hva) as ([i j] & Hk & Hea).
    exists i, j. split; [assumption|]. split; [assumption|].
    exact (Forall2_lookup_lr _ _ _ _ _ _ Hpb Hk Hvb).
Qed.


(** ** Binary64 arithmetic *)

(** Number of binary digits. *)
Lemma digits2_pos_size (p : positive) : digits2_pos p = Pos.size p.
Proof. induction p; simpl; congruence. Qed.

Lemma digits_bounds (p : positive) :
  2 ^ (Z.pos (digits2_pos p) - 1) <= Z.pos p < 2 ^ Z.pos (digits2_pos p).
Proof.
  rewrite digits2_pos_size.
  assert (H : Z.pos (Pos.size p) = Z.log2 (Z.pos p) + 1).
  { destruct p; simpl; lia. }
  rewrite H. replace (Z.log2 (Z.pos p) + 1 - 1) with (Z.log2 (Z.pos p)) by lia.
  rewrite Z.add_1_r. apply Z.log2_spec. lia.
Qed.

Lemma digits_unique (p : positive) (d : Z) :
  2 ^ (d - 1) <= Z.pos p < 2 ^ d -> Z.pos (digits2_pos p) = d.
Proof.
  intros H. pose proof (digits_bounds p) as Hp.
  assert (0 < d).
  { destruct (Z.ltb_spec 0 d); [assumption|].
    assert (2 ^ d <= 2 ^ 0) by (apply Z.pow_le_mono_r; lia). simpl in *. lia. }
  set (d' := Z.pos (digits2_pos p)) in *.
  destruct (Z.lt_trichotomy d' d) as [Hlt | [Heq | Hgt]]; [|assumption|].
  - assert (2 ^ d' <= 2 ^ (d - 1)) by (apply Z.pow_le_mono_r; lia). lia.
  - assert (2 ^ d <= 2 ^ (d' - 1)) by (apply Z.pow_le_mono_r; lia). lia.
Qed.

Lemma pshl_Z (p : positive) (k : nat) : Z.pos (pshl p k) = Z.pos p * 2 ^ Z.of_nat k.
Proof.
  induction k as [|k IH]; [simpl; lia|].
  change (pshl p (S k)) with (xO (pshl p k)).
  rewrite Pos2Z.inj_xO, IH, Nat2Z.inj_succ, Z.pow_succ_r by lia. ring.
Qed.

Lemma pshl_pshl p j k : pshl (pshl p j) k = pshl p (j + k).
Proof. unfold pshl. rewrite Nat.add_comm. symmetry. apply Nat.iter_add. Qed.

Lemma pos_iter_pshl (p d : positive) : Pos.iter xO p d = pshl p (Pos.to_nat d).
Proof. apply Pos2Nat.inj_iter. Qed.

Lemma digits_pshl (p : positive) (k : nat) :
  Z.pos (digits2_pos (pshl p k)) = Z.pos (digits2_pos p) + Z.of_nat k.
Proof.
  induction k as [|k IH]; [simpl; lia|].
  change (pshl p (S k)) with (xO (pshl p k)). simpl digits2_pos.
  rewrite Pos2Z.inj_succ, IH. lia.
Qed.

Lemma iter_pos_nat {A} (f : A -> A) (n : positive) (x : A) :
  SpecFloat.iter_pos f n x = Nat.iter (Pos.to_nat n) f x.
Proof.
  revert x. induction n as [n IH | n IH |]; intros x; cbn [SpecFloat.iter_pos].
  - rewrite !IH. rewrite Pos2Nat.inj_xI.
    replace (S (2 * Pos.to_nat n)) with (Pos.to_nat n + (Pos.to_nat n + 1))%nat by lia.
    rewrite !Nat.iter_add. reflexivity.
  - rewrite !IH. rewrite Pos2Nat.inj_xO.
    replace (2 * Pos.to_nat n)%nat with (Pos.to_nat n + Pos.to_nat n)%nat by lia.
    rewrite Nat.iter_add. reflexivity.
  - reflexivity.
Qed.

Lemma shr_1_exact (q : positive) (k : nat) :
  Nat.iter k shr_1 (Build_shr_record (Z.pos (pshl q k)) false false)
  = Build_shr_record (Z.pos q) false false.
Proof.
  induction k as [|k IH]; [reflexivity|].
  rewrite Nat.iter_succ_r. exact IH.
Qed.

Lemma shr_exact (q : positive) (k : nat) (e : Z) :
  shr (Build_shr_record (Z.pos (pshl q k)) false false) e (Z.of_nat k)
  = (Build_shr_record (Z.pos q) false false, e + Z.of_nat k).
Proof.
  destruct k as [|k].
  - simpl. f_equal. lia.
  - unfold shr. destruct (Z.of_nat (S k)) as [|t|t] eqn:Ht; try lia.
    rewrite iter_pos_nat. replace (Pos.to_nat t) with (S k) by lia.
    rewrite shr_1_exact. reflexivity.
Qed.

Lemma fexp_normal (n : Z) : -1021 <= n -> fexp prec emax n = n - 53.
Proof. intros H. unfold fexp, SpecFloat.emin, prec, emax. lia. Qed.

(** Rounding a mantissa whose digits beyond the 53rd are zero is exact. *)
Lemma binary_round_aux_exact (s : bool) (q : positive) (k : nat) (e : Z) :
  Z.pos (digits2_pos q) = 53 ->
  -1074 <= e + Z.of_nat k <= 971 ->
  binary_round_aux prec emax s (Z.pos (pshl q k)) e loc_Exact
  = S754_finite s q (e + Z.of_nat k).
Proof.
  intros Hq He. unfold binary_round_aux, shr_fexp.
  cbn [Zdigits2 shr_record_of_loc]. rewrite digits_pshl, Hq.
  rewrite fexp_normal by lia.
  replace (53 + Z.of_nat k + e - 53 - e) with (Z.of_nat k) by lia.
  rewrite shr_exact.
  cbn [shr_m loc_of_shr_record round_nearest_even Zdigits2 shr_record_of_loc].
  rewrite Hq, fexp_normal by lia.
  replace (53 + (e + Z.of_nat k) - 53 - (e + Z.of_nat k)) with 0 by lia.
  cbn [shr shr_m].
  replace (e + Z.of_nat k <=? emax - prec) with true; [reflexivity|].
  symmetry. apply Z.leb_le. unfold emax, prec. lia.
Qed.

Lemma binary_round_pshl (s : bool) (p : positive) (j : nat) (e : Z) :
  Z.pos (digits2_pos p) <= 53 ->
  -1074 <= e + Z.of_nat j + Z.pos (digits2_pos p) - 53 <= 971 ->
  binary_round prec emax s (pshl p j) e
  = S754_finite s (pshl p (Z.to_nat (53 - Z.pos (digits2_pos p))))
                (e + Z.of_nat j + Z.pos (digits2_pos p) - 53).
Proof.
  set (d := Z.pos (digits2_pos p)). intros Hd He.
  unfold binary_round. rewrite digits_pshl. fold d.
  rewrite fexp_normal by lia. unfold shl_align.
  destruct (d + Z.of_nat j + e - 53 - e) as [|t|t] eqn:Ht.
  - assert (Hj : j = Z.to_nat (53 - d)) by lia. rewrite <- Hj.
    change (Z.pos (pshl p j)) with (Z.pos (pshl (pshl p j) 0)).
    rewrite (binary_round_aux_exact s (pshl p j) 0 e).
    + f_equal. lia.
    + rewrite digits_pshl. fold d. lia.
    + lia.
  - assert (Hj : (j = Z.to_nat (53 - d) + Pos.to_nat t)%nat) by lia.
    rewrite Hj at 1. rewrite <- pshl_pshl.
    rewrite binary_round_aux_exact.
    + f_equal. lia.
    + rewrite digits_pshl. fold d. lia.
    + lia.
  - rewrite pos_iter_pshl, pshl_pshl.
    assert (Hj : (j + Pos.to_nat t = Z.to_nat (53 - d))%nat) by lia.
    rewrite Hj.
    change (Z.pos (pshl p (Z.to_nat (53 - d))))
      with (Z.pos (pshl (pshl p (Z.to_nat (53 - d))) 0)).
    rewrite binary_round_aux_exact.
    + f_equal. lia.
    + rewrite digits_pshl. fold d. lia.
    + lia.
Qed.

Lemma digits_le (p : positive) (D : Z) : Z.pos p < 2 ^ D -> Z.pos (digits2_pos p) <= D.
Proof.
  intros H. pose proof (digits_bounds p) as [Hlo _].
  destruct (Z.leb_spec (Z.pos (digits2_pos p)) D) as [|Hgt]; [assumption|].
  assert (2 ^ D <= 2 ^ (Z.pos (digits2_pos p) - 1)).
  { apply Z.pow_le_mono_r; [lia|]. lia. }
  lia.
Qed.

Lemma of_Z_exact (z : Z) : 0 <= z < 2 ^ 53 -> Prim2SF (of_Z z) = Z2SF z.
Proof.
  intros Hz. unfold of_Z. rewrite of_uint63_spec, Uint63.of_Z_spec.
  rewrite Z.mod_small by (change wB with (2 ^ 63); lia).
  destruct z as [|p|p]; [reflexivity| |lia].
  pose proof (digits_le p 53 ltac:(lia)).
  unfold binary_normalize, Z2SF, canon.
  change p with (pshl p 0) at 1.
  rewrite binary_round_pshl by (simpl; lia).
  f_equal; simpl; lia.
Qed.

Lemma shl_align_fst (m : positive) (ex ez : Z) :
  ez <= ex -> (shl_align m ex ez).1 = pshl m (Z.to_nat (ex - ez)).
Proof.
  intros H. unfold shl_align. destruct (ez - ex) as [|t|t] eqn:Ht; simpl.
  - replace (ex - ez) with 0 by lia. reflexivity.
  - lia.
  - rewrite pos_iter_pshl. f_equal. lia.
Qed.

Lemma pshl_add (p q : positive) (j : nat) : (pshl p j + pshl q j)%positive = pshl (p + q) j.
Proof.
  apply Pos2Z.inj. rewrite Pos2Z.inj_add, !pshl_Z, Pos2Z.inj_add. ring.
Qed.

(** Adding two such integers is exact as long as the sum stays below [2^53]. *)
Lemma SFadd_exact (a b : Z) :
  0 <= a -> 0 <= b -> a + b < 2 ^ 53 ->
  SF64add (Z2SF a) (Z2SF b) = Z2SF (a + b).
Proof.
  intros Ha Hb Hab.
  destruct a as [|p|p]; [|destruct b as [|q|q]|]; try lia.
  - destruct b; try lia; reflexivity.
  - reflexivity.
  - pose proof (digits_le p 53 ltac:(lia)) as Hp.
    pose proof (digits_le q 53 ltac:(lia)) as Hq.
    pose proof (digits_le (p + q) 53 ltac:(lia)) as Hpq.
    change (Z2SF (Z.pos p)) with (canon p). change (Z2SF (Z.pos q)) with (canon q).
    unfold SF64add, SFadd, canon. cbv zeta.
    set (dp := Z.pos (digits2_pos p)) in *. set (dq := Z.pos (digits2_pos q)) in *.
    set (ez := Z.min (dp - 53) (dq - 53)).
    rewrite !shl_align_fst by lia. rewrite !pshl_pshl.
    replace (Z.to_nat (53 - dp) + Z.to_nat (dp - 53 - ez))%nat with (Z.to_nat (- ez)) by lia.
    replace (Z.to_nat (53 - dq) + Z.to_nat (dq - 53 - ez))%nat with (Z.to_nat (- ez)) by lia.
    cbn [cond_Zopp]. rewrite <- !Pos2Z.inj_add, pshl_add.
    cbn [binary_normalize Z2SF]. unfold canon.
    rewrite binary_round_pshl by lia. f_equal. lia.
Qed.

Lemma fold_add_exact (l : list nat) (s : Z) (acc : float) :
  0 <= s -> Prim2SF acc = Z2SF s -> s + Z.of_nat (sum_list l) < 2 ^ 53 ->
  Prim2SF (fold_left (fun acc v => acc + of_intp v)%float l acc)
  = Z2SF (s + Z.of_nat (sum_list l)).
Proof.
  revert s acc. induction l as [|v l IH]; intros s acc Hs Hacc Hsum; simpl in *.
  - rewrite Z.add_0_r. assumption.
  - replace (s + Z.of_nat (v + sum_list l)) with (s + Z.of_nat v + Z.of_nat (sum_list l)) by lia.
    apply IH; [lia | | lia].
    rewrite FloatAxioms.add_spec, Hacc. unfold of_intp. rewrite of_Z_exact by lia.
    apply SFadd_exact; lia.
Qed.

(** Below [2^53] the running sum of [np.mean] is the exact integer sum. *)
Lemma np_mean_exact (l : list nat) :
  Z.of_nat (sum_list l) < 2 ^ 53 ->
  np_mean l = (of_Z (Z.of_nat (sum_list l)) / of_Z (Z.of_nat (length l)))%float.
Proof.
  intros H. unfold np_mean, of_intp. f_equal.
  apply Prim2SF_inj. rewrite of_Z_exact by lia.
  apply (fold_add_exact l 0 0%float); [lia | reflexivity | lia].
Qed.

(** *** Signs, NaN and overflow *)

Lemma shr_1_range (r : shr_record) :
  0 <= shr_m r -> 0 <= shr_m (shr_1 r) <= shr_m r.
Proof.
  destruct r as [m b1 b2]. destruct m as [|[p|p|]|p]; simpl; lia.
Qed.

Lemma iter_shr_1_range (k : nat) (r : shr_record) :
  0 <= shr_m r -> 0 <= shr_m (Nat.iter k shr_1 r) <= shr_m r.
Proof.
  intros Hr. induction k as [|k IH]; [simpl; lia|].
  cbn [Nat.iter nat_rect]. pose proof (shr_1_range (Nat.iter k shr_1 r)).
  unfold Nat.iter in *. lia.
Qed.

Lemma shr_m_of_loc (m : Z) (l : location) : shr_m (shr_record_of_loc m l) = m.
Proof. destruct l as [|[]]; reflexivity. Qed.

Lemma shr_fexp_range (m e : Z) (l : location) (r : shr_record) (e' : Z) :
  0 <= m -> shr_fexp prec emax m e l = (r, e') ->
  0 <= shr_m r <= m /\ e' = Z.max e (fexp prec emax (Zdigits2 m + e)).
Proof.
  intros Hm. unfold shr_fexp, shr.
  destruct (fexp prec emax (Zdigits2 m + e) - e) as [|t|t] eqn:Ht; intros [= <- <-].
  - rewrite shr_m_of_loc. lia.
  - rewrite iter_pos_nat.
    pose proof (iter_shr_1_range (Pos.to_nat t) (shr_record_of_loc m l)) as H.
    rewrite shr_m_of_loc in H. lia.
  - rewrite shr_m_of_loc. lia.
Qed.

Lemma Zdigits2_range (m D : Z) : 0 <= m < 2 ^ D -> 0 <= Zdigits2 m <= D.
Proof.
  intros Hm. destruct m as [|p|p]; simpl; try lia.
  - assert (0 <= D); [|lia].
    destruct (Z.leb_spec 0 D); [assumption|]. rewrite Z.pow_neg_r in Hm; lia.
  - pose proof (digits_le p D). lia.
Qed.

Lemma round_nearest_even_range (m : Z) (l : location) :
  m <= round_nearest_even m l <= m + 1.
Proof. destruct l as [|[]]; simpl; try lia. destruct (Z.even m); lia. Qed.

(** Rounding a non-negative mantissa never gives NaN and keeps the sign. *)
Lemma binary_round_aux_sign (s : bool) (m e : Z) (l : location) :
  0 <= m -> sign_of (binary_round_aux prec emax s m e l) = Some s.
Proof.
  intros Hm. unfold binary_round_aux.
  destruct (shr_fexp prec emax m e l) as [r1 e1] eqn:H1.
  apply shr_fexp_range in H1 as [H1 _]; [|assumption].
  pose proof (round_nearest_even_range (shr_m r1) (loc_of_shr_record r1)) as Hr.
  destruct (shr_fexp prec emax _ e1 loc_Exact) as [r2 e2] eqn:H2.
  apply shr_fexp_range in H2 as [H2 _]; [|lia].
  destruct (shr_m r2) as [|t|t]; [reflexivity | | lia].
  destruct (e2 <=? emax - prec); reflexivity.
Qed.

(** No overflow while the mantissa and the exponent stay small. *)
Lemma binary_round_aux_finite (s : bool) (m e : Z) (l : location) (D : Z) :
  0 <= m < 2 ^ D -> D <= 200 -> e <= 500 ->
  SFfinite (binary_round_aux prec emax s m e l) = true.
Proof.
  intros Hm HD He. unfold binary_round_aux.
  destruct (shr_fexp prec emax m e l) as [r1 e1] eqn:H1.
  apply shr_fexp_range in H1 as [H1 He1]; [|lia].
  pose proof (round_nearest_even_range (shr_m r1) (loc_of_shr_record r1)) as Hr.
  destruct (shr_fexp prec emax _ e1 loc_Exact) as [r2 e2] eqn:H2.
  apply shr_fexp_range in H2 as [H2 He2]; [|lia].
  pose proof (Zdigits2_range m D Hm) as Hd1.
  assert (Hd2 : 0 <= Zdigits2 (round_nearest_even (shr_m r1) (loc_of_shr_record r1)) <= D + 1).
  { apply Zdigits2_range. rewrite Z.pow_add_r by lia. lia. }
  unfold fexp, SpecFloat.emin, prec, emax in *.
  destruct (shr_m r2) as [|t|t]; [reflexivity | | lia].
  replace (e2 <=? 1024 - 53) with true; [reflexivity|].
  symmetry. apply Z.leb_le. lia.
Qed.

Lemma binary_round_aux_abs (s : bool) (m e : Z) (l : location) :
  SFabs (binary_round_aux prec emax s m e l)
  = SFabs (binary_round_aux prec emax false m e l).
Proof.
  unfold binary_round_aux.
  destruct (shr_fexp prec emax m e l) as [r1 e1].
  destruct (shr_fexp prec emax _ e1 loc_Exact) as [r2 e2].
  destruct (shr_m r2); [reflexivity | | reflexivity].
  destruct (e2 <=? emax - prec); reflexivity.
Qed.

Lemma binary_normalize_opp_abs (z e : Z) :
  SFabs (binary_normalize prec emax (- z) e false)
  = SFabs (binary_normalize prec emax z e false).
Proof.
  destruct z as [|p|p]; [reflexivity | |]; simpl; unfold binary_round;
    destruct (shl_align p e _) as [mz ez];
    rewrite (binary_round_aux_abs true); reflexivity.
Qed.

Lemma binary_normalize_sign (z e : Z) :
  sign_of (binary_normalize prec emax z e false) <> None.
Proof.
  destruct z as [|p|p]; simpl; [discriminate | |]; unfold binary_round;
    destruct (shl_align p e _) as [mz ez];
    rewrite binary_round_aux_sign by lia; discriminate.
Qed.

(** The two differences [a - b] and [b - a] are equal up to the sign. *)
Lemma SFsub_swap_abs (a b : spec_float) :
  SFabs (SF64sub a b) = SFabs (SF64sub b a).
Proof.
  unfold SF64sub.
  destruct a as [sa|sa| |sa ma ea], b as [sb|sb| |sb mb eb];
    try reflexivity; try (destruct sa, sb; reflexivity).
  unfold SFsub. rewrite (Z.min_comm eb ea).
  rewrite <- binary_normalize_opp_abs. f_equal. f_equal. lia.
Qed.

Lemma SFmul_self_abs (u v : spec_float) :
  SFabs u = SFabs v -> SF64mul u u = SF64mul v v.
Proof.
  unfold SF64mul.
  destruct u as [su|su| |su mu eu], v as [sv|sv| |sv mv ev]; try discriminate;
    try reflexivity; simpl; intros [= ]; subst;
    rewrite ?xorb_nilpotent; reflexivity.
Qed.

(** A finite number minus itself is [+0]. *)
Lemma SFsub_diag (a : spec_float) :
  SFfinite a = true -> SF64sub a a = S754_zero false.
Proof.
  destruct a as [s|s| |s m e]; try discriminate; intros _.
  - destruct s; reflexivity.
  - unfold SF64sub, SFsub. rewrite Z.sub_diag. reflexivity.
Qed.

Lemma SFsub_finite_sign (a b : spec_float) :
  SFfinite a = true -> SFfinite b = true -> sign_of (SF64sub a b) <> None.
Proof.
  destruct a as [sa|sa| |sa ma ea], b as [sb|sb| |sb mb eb]; try discriminate;
    intros _ _; try (destruct sa, sb; discriminate); try discriminate.
  apply binary_normalize_sign.
Qed.

Lemma SFmul_self_sign (u : spec_float) :
  sign_of u <> None -> sign_of (SF64mul u u) = Some false.
Proof.
  destruct u as [s|s| |s m e]; intros Hu;
    try (destruct s; reflexivity); [destruct Hu; reflexivity|].
  unfold SF64mul, SFmul. rewrite binary_round_aux_sign by lia.
  destruct s; reflexivity.
Qed.

Lemma SFadd_nonneg (u v : spec_float) :
  sign_of u = Some false -> sign_of v = Some false ->
  sign_of (SF64add u v) = Some false.
Proof.
  destruct u as [su|su| |su mu eu], v as [sv|sv| |sv mv ev]; simpl;
    try discriminate; intros [= ->] [= ->]; try reflexivity.
  unfold SF64add, SFadd. cbn [cond_Zopp]. rewrite <- Pos2Z.inj_add.
  cbn [binary_normalize]. unfold binary_round.
  destruct (shl_align _ _ _) as [mz ez]. apply binary_round_aux_sign. lia.
Qed.

Lemma SFsqrt_nonneg (u : spec_float) :
  sign_of u = Some false -> sign_of (SF64sqrt u) = Some false.
Proof.
  destruct u as [s|s| |s m e]; simpl; try discriminate; intros [= ->]; try reflexivity.
  unfold SF64sqrt, SFsqrt, SFsqrt_core_binary.
  set (m' := match _ with Z.pos _ => _ | _ => _ end).
  pose proof (Z.sqrtrem_spec m') as Hs.
  destruct (Z.sqrtrem m') as [q r].
  apply binary_round_aux_sign.
  assert (0 <= m').
  { subst m'. destruct (_ - _) as [|t|t]; try lia. apply Z.shiftl_nonneg. lia. }
  specialize (Hs ltac:(assumption)). nia.
Qed.

Lemma pow2_sub_swap (a b : float) : pow2 (a - b) = pow2 (b - a).
Proof.
  apply Prim2SF_inj. unfold pow2. rewrite !FloatAxioms.mul_spec, !FloatAxioms.sub_spec.
  apply SFmul_self_abs, SFsub_swap_abs.
Qed.

Lemma euclid_swap (xi xj yi yj : float) : euclid xi xj yi yj = euclid xj xi yj yi.
Proof. unfold euclid. rewrite (pow2_sub_swap xi xj), (pow2_sub_swap yi yj). reflexivity. Qed.

Lemma sub_diag (x : float) : finite64 x = true -> (x - x)%float = 0%float.
Proof.
  intros H. apply Prim2SF_inj. rewrite FloatAxioms.sub_spec.
  rewrite SFsub_diag by assumption. reflexivity.
Qed.

Lemma euclid_diag (x y : float) :
  finite64 x = true -> finite64 y = true -> euclid x x y y = 0%float.
Proof. intros Hx Hy. unfold euclid. rewrite !sub_diag by assumption. reflexivity. Qed.

Lemma euclid_nonneg (xi xj yi yj : float) :
  finite64 xi = true -> finite64 xj = true ->
  finite64 yi = true -> finite64 yj = true ->
  nonneg64 (euclid xi xj yi yj).
Proof.
  intros Hxi Hxj Hyi Hyj. unfold nonneg64, euclid, pow2.
  rewrite FloatAxioms.sqrt_spec, FloatAxioms.add_spec, !FloatAxioms.mul_spec,
    !FloatAxioms.sub_spec.
  apply SFsqrt_nonneg, SFadd_nonneg; apply SFmul_self_sign, SFsub_finite_sign; assumption.
Qed.

Lemma SFcompare_refl (u : spec_float) : sign_of u <> None -> SFcompare u u = Some Eq.
Proof.
  destruct u as [s|s| |s m e]; intros H; try (destruct s; reflexivity);
    [destruct H; reflexivity|].
  simpl. rewrite Z.compare_refl, Pos.compare_cont_refl. destruct s; reflexivity.
Qed.

(** [x == x] holds for everything but NaN. *)
Lemma eqb_refl (x : float) : sign_of (Prim2SF x) <> None -> (x =? x)%float = true.
Proof.
  intros H. rewrite FloatAxioms.eqb_spec. unfold SFeqb.
  rewrite SFcompare_refl by assumption. reflexivity.
Qed.

Lemma leb_zero (x : float) : nonneg64 x -> (0 <=? x)%float = true.
Proof.
  unfold nonneg64. intros H. rewrite FloatAxioms.leb_spec.
  change (Prim2SF 0) with (S754_zero false).
  destruct (Prim2SF x) as [s|s| |s m e]; simpl in H; try discriminate;
    injection H as ->; reflexivity.
Qed.

Lemma digits_canon (p : positive) :
  Z.pos (digits2_pos p) <= 53 ->
  Z.pos (digits2_pos (pshl p (Z.to_nat (53 - Z.pos (digits2_pos p))))) = 53.
Proof. intros H. rewrite digits_pshl. lia. Qed.

(** The quotient of two integers below [2^53] does not overflow. *)
Lemma SFdiv_exact_finite (a b : Z) :
  0 <= a < 2 ^ 53 -> 0 < b < 2 ^ 53 ->
  SFfinite (SF64div (Z2SF a) (Z2SF b)) = true.
Proof.
  intros Ha Hb. destruct b as [|q|q]; try lia.
  destruct a as [|p|p]; try lia; [reflexivity|].
  pose proof (digits_le p 53 ltac:(lia)) as Hp.
  pose proof (digits_le q 53 ltac:(lia)) as Hq.
  pose proof (digits_canon p Hp) as Hdp. pose proof (digits_canon q Hq) as Hdq.
  cbn [Z2SF]. unfold canon. cbv zeta.
  set (mp := pshl p _) in *. set (mq := pshl q _) in *.
  set (ep := Z.pos (digits2_pos p) - 53). set (eq' := Z.pos (digits2_pos q) - 53).
  unfold SF64div, SFdiv, SFdiv_core_binary. cbn [Zdigits2]. rewrite Hdp, Hdq.
  rewrite fexp_normal by lia.
  replace (Z.min (53 + ep - (53 + eq') - 53) (ep - eq')) with (ep - eq' - 53) by lia.
  replace (ep - eq' - (ep - eq' - 53)) with 53 by lia.
  pose proof (Z_div_mod (Z.shiftl (Z.pos mp) 53) (Z.pos mq) ltac:(lia)) as Hdm.
  destruct (Z.div_eucl (Z.shiftl (Z.pos mp) 53) (Z.pos mq)) as [qq rr].
  destruct Hdm as [Hdm Hrr].
  pose proof (digits_bounds mp) as Hmp. rewrite Hdp in Hmp.
  rewrite Z.shiftl_mul_pow2 in Hdm by lia.
  apply (binary_round_aux_finite _ _ _ _ 106); [|lia|lia].
  change (2 ^ 106) with (2 ^ 53 * 2 ^ 53). nia.
Qed.

Lemma mean_finite (s c : Z) :
  0 <= s < 2 ^ 53 -> 0 < c < 2 ^ 53 -> finite64 (of_Z s / of_Z c) = true.
Proof.
  intros Hs Hc. unfold finite64.
  rewrite FloatAxioms.div_spec, !of_Z_exact by lia.
  apply SFdiv_exact_finite; assumption.
Qed.

(** ** The positions returned by [np.where] *)

Lemma sum_row_positions (f : nat -> nat -> nat) (r : nat) (g : nat -> nat) (row : list bool) :
  sum_list ((fun p => f p.1 p.2) <$>
            concat (imap (fun c (b : bool) => if b then [(r, g c)] else []) row))
  = sum_list (imap (fun c (b : bool) => if b then f r (g c) else 0%nat) row).
Proof.
  revert g. induction row as [|b row IH]; intros g; [reflexivity|].
  cbn [imap concat sum_list_with]. rewrite fmap_app, sum_list_with_app.
  f_equal; [destruct b; simpl; lia | exact (IH (g ∘ S))].
Qed.

Lemma sum_positions_gen (f : nat -> nat -> nat) (h : nat -> nat) (m : mask) :
  sum_list ((fun p => f p.1 p.2) <$> concat (imap (fun r => nonzero_row (h r)) m))
  = sum_list (imap (fun r row =>
       sum_list (imap (fun c (b : bool) => if b then f (h r) c else 0%nat) row)) m).
Proof.
  revert h. induction m as [|row m IH]; intros h; [reflexivity|].
  cbn [imap concat sum_list_with]. rewrite fmap_app, sum_list_with_app.
  f_equal; [|exact (IH (h ∘ S))].
  apply (sum_row_positions f (h 0%nat) (fun c => c)).
Qed.

Lemma sum_positions (f : nat -> nat -> nat) (m : mask) :
  sum_list ((fun p => f p.1 p.2) <$> concat (imap nonzero_row m)) = sum_true f m.
Proof. apply (sum_positions_gen f (fun r => r)). Qed.

Lemma length_sum_ones {A} (l : list A) : length l = sum_list ((fun _ => 1%nat) <$> l).
Proof. induction l as [|x l IH]; simpl; [reflexivity | rewrite IH; reflexivity]. Qed.

Lemma np_where_rows (m : mask) :
  length (np_where m).1 = count_true m /\ sum_list (np_where m).1 = row_index_sum m.
Proof.
  unfold np_where. cbn [fst]. split.
  - rewrite length_fmap, length_sum_ones.
    apply (sum_positions (fun _ _ => 1%nat)).
  - apply (sum_positions (fun r _ => r)).
Qed.

Lemma np_where_cols (m : mask) :
  length (np_where m).2 = count_true m /\ sum_list (np_where m).2 = col_index_sum m.
Proof.
  unfold np_where. cbn [snd]. split.
  - rewrite length_fmap, length_sum_ones.
    apply (sum_positions (fun _ _ => 1%nat)).
  - apply (sum_positions (fun _ c => c)).
Qed.

Lemma elem_of_concat {A} (x : A) (ls : list (list A)) :
  x ∈ concat ls <-> exists l, x ∈ l /\ l ∈ ls.
Proof.
  induction ls as [|l ls IH]; simpl.
  - split; [intros H; inversion H | intros (l & _ & H); inversion H].
  - rewrite elem_of_app, IH. split.
    + intros [H | (l' & H1 & H2)]; [exists l; split; [assumption | left] |].
      exists l'. split; [assumption | right; assumption].
    + intros (l' & H1 & H2). apply elem_of_cons in H2 as [-> | H2]; [left; assumption|].
      right. exists l'. auto.
Qed.

Lemma elem_of_nonzero_row (r : nat) (row : list bool) (p : nat * nat) :
  p ∈ nonzero_row r row <-> p.1 = r /\ row !! p.2 = Some true.
Proof.
  unfold nonzero_row. rewrite elem_of_concat. split.
  - intros (l & Hp & Hl). apply elem_of_lookup_imap in Hl as (c & b & -> & Hc).
    destruct b; [|inversion Hp].
    apply list_elem_of_singleton in Hp as ->. auto.
  - intros [<- Hc]. exists [(p.1, p.2)]. split.
    + destruct p. left.
    + apply elem_of_lookup_imap. exists p.2, true. auto.
Qed.

(** [np.where] lists exactly the true entries. *)
Lemma elem_of_positions (m : mask) (r c : nat) :
  (r, c) ∈ concat (imap nonzero_row m) <-> entry m r c = Some true.
Proof.
  rewrite elem_of_concat. unfold entry. split.
  - intros (l & Hp & Hl). apply elem_of_lookup_imap in Hl as (r' & row & -> & Hr).
    apply elem_of_nonzero_row in Hp as [Heq Hc]. simpl in Heq, Hc. subst r'.
    rewrite Hr. exact Hc.
  - destruct (m !! r) as [row|] eqn:Hr; simpl; [|discriminate].
    intros Hc. exists (nonzero_row r row). split.
    + apply elem_of_nonzero_row. auto.
    + apply elem_of_lookup_imap. eauto.
Qed.

Lemma nonempty_count (m : mask) : nonempty m -> (0 < count_true m)%nat.
Proof.
  intros (r & c & H). apply elem_of_positions in H.
  destruct (np_where_rows m) as [<- _]. unfold np_where. cbn [fst].
  rewrite length_fmap. destruct (concat (imap nonzero_row m)); [inversion H | simpl; lia].
Qed.

Lemma empty_np_where (m : mask) :
  (forall r c, entry m r c <> Some true) -> np_where m = ([], []).
Proof.
  intros H. unfold np_where.
  destruct (concat (imap nonzero_row m)) as [|[r c] l] eqn:Hpos; [reflexivity|].
  destruct (H r c). apply elem_of_positions. rewrite Hpos. left.
Qed.

(** The two coordinates of the centroid of a valid mask. *)
Lemma np_mean_rows (m : mask) :
  fits_binary64 m -> np_mean (np_where m).1 = mean_of (row_index_sum m) (count_true m).
Proof.
  intros (_ & Hr & _). destruct (np_where_rows m) as [Hlen Hsum].
  rewrite np_mean_exact by (rewrite Hsum; assumption).
  rewrite Hlen, Hsum. reflexivity.
Qed.

Lemma np_mean_cols (m : mask) :
  fits_binary64 m -> np_mean (np_where m).2 = mean_of (col_index_sum m) (count_true m).
Proof.
  intros (_ & _ & Hc). destruct (np_where_cols m) as [Hlen Hsum].
  rewrite np_mean_exact by (rewrite Hsum; assumption).
  rewrite Hlen, Hsum. reflexivity.
Qed.

Lemma mean_of_finite (s n : nat) :
  Z.of_nat s < 2 ^ 53 -> (0 < n)%nat -> Z.of_nat n < 2 ^ 53 -> finite64 (mean_of s n) = true.
Proof. intros Hs Hn Hn'. apply mean_finite; lia. Qed.

(** [np.where] lists the true entries in row-major order, each once. *)
Lemma row_positions_sorted (r : nat) (g : nat -> nat) (row : list bool) :
  (forall a b, (a < b)%nat -> (g a < g b)%nat) ->
  StronglySorted row_major_lt
    (concat (imap (fun c (b : bool) => if b then [(r, g c)] else []) row)).
Proof.
  revert g. induction row as [|b row IH]; intros g Hg; [constructor|].
  cbn [imap concat]. apply StronglySorted_app_2.
  - intros p q Hp Hq. destruct b; [|inversion Hp].
    apply list_elem_of_singleton in Hp as ->.
    apply elem_of_concat in Hq as (l & Hq & Hl).
    apply elem_of_lookup_imap in Hl as (c & b & -> & _).
    destruct b; [|inversion Hq]. apply list_elem_of_singleton in Hq as ->.
    right. simpl. split; [reflexivity|]. apply Hg. lia.
  - destruct b; repeat constructor.
  - apply (IH (g ∘ S)). intros a b' Hab. apply Hg. lia.
Qed.

Lemma positions_sorted_gen (h : nat -> nat) (m : mask) :
  (forall a b, (a < b)%nat -> (h a < h b)%nat) ->
  StronglySorted row_major_lt (concat (imap (fun r => nonzero_row (h r)) m)).
Proof.
  revert h. induction m as [|row m IH]; intros h Hh; [constructor|].
  cbn [imap concat]. apply StronglySorted_app_2.
  - intros p q Hp Hq.
    apply elem_of_nonzero_row in Hp as [Hp _].
    apply elem_of_concat in Hq as (l & Hq & Hl).
    apply elem_of_lookup_imap in Hl as (r' & row' & -> & _).
    apply elem_of_nonzero_row in Hq as [Hq _].
    left. rewrite Hp, Hq. apply Hh. lia.
  - apply (row_positions_sorted (h 0%nat) (fun c => c)). auto.
  - apply (IH (h ∘ S)). intros a b Hab. apply Hh. lia.
Qed.

Lemma positions_sorted (m : mask) :
  StronglySorted row_major_lt (concat (imap nonzero_row m)).
Proof. apply (positions_sorted_gen (fun r => r)). auto. Qed.

Lemma row_major_lt_irrefl (p : nat * nat) : ~ row_major_lt p p.
Proof. intros [H | [_ H]]; lia. Qed.

(** A mask whose only true entry is [(r0, c0)]. *)
Lemma np_where_single (m : mask) (r0 c0 : nat) :
  (forall r c, entry m r c = Some true <-> (r, c) = (r0, c0)) ->
  np_where m = ([r0], [c0]).
Proof.
  intros H. unfold np_where.
  pose proof (sorted_NoDup _ _ row_major_lt_irrefl (positions_sorted m)) as Hnd.
  assert (Hin : forall p, p ∈ concat (imap nonzero_row m) <-> p = (r0, c0)).
  { intros [r c]. rewrite elem_of_positions. apply H. }
  destruct (concat (imap nonzero_row m)) as [|p [|q l]].
  - pose proof (proj2 (Hin (r0, c0)) eq_refl) as Hx. inversion Hx.
  - rewrite (proj1 (Hin p)) by left. reflexivity.
  - apply NoDup_cons in Hnd as [Hp _]. destruct Hp.
    rewrite (proj1 (Hin p)) by left.
    rewrite <- (proj1 (Hin q)) by (right; left). left.
Qed.

(** The centroid loop in closed form. *)
Lemma centroid_loop_map (rois : list mask) :
  centroid_loop rois
  = Ok ((fun m => np_mean (np_where m).2) <$> rois,
        (fun m => np_mean (np_where m).1) <$> rois).
Proof.
  destruct (centroid_loop_spec rois) as (lx & ly & -> & Hlx & Hly & Hval).
  f_equal. f_equal.
  - apply list_eq_same_length with (length rois); [apply length_fmap | assumption |].
    intros i x y Hi Hx Hy. rewrite list_lookup_fmap in Hy.
    destruct (rois !! i) as [m|] eqn:Him; [|discriminate].
    destruct (Hval i m Him) as [Hx' _]. rewrite Hx' in Hx.
      injection Hx as <-. injection Hy as <-. reflexivity.
  - apply list_eq_same_length with (length rois); [apply length_fmap | assumption |].
    intros i x y Hi Hx Hy. rewrite list_lookup_fmap in Hy.
    destruct (rois !! i) as [m|] eqn:Him; [|discriminate].
    destruct (Hval i m Him) as [_ Hy']. rewrite Hy' in Hx.
      injection Hx as <-. injection Hy as <-. reflexivity.
Qed.

Lemma entry_pixel_mask (h w : nat) (pixels : list (nat * nat)) (r c : nat) :
  entry (pixel_mask h w pixels) r c = Some true <->
  (r < h)%nat /\ (c < w)%nat /\ (r, c) ∈ pixels.
Proof.
  unfold entry, pixel_mask. rewrite list_lookup_fmap.
  destruct (seq 0 h !! r) as [r'|] eqn:Hr; simpl.
  - apply lookup_seq in Hr as [-> Hr]. rewrite list_lookup_fmap.
    destruct (seq 0 w !! c) as [c'|] eqn:Hc; simpl.
    + apply lookup_seq in Hc as [-> Hc]. simpl. split.
      * intros [= Hex]. apply existsb_exists in Hex as ([pr pc] & Hin & Hp).
        apply andb_true_iff in Hp as [H1 H2]. simpl in H1, H2.
        apply Nat.eqb_eq in H1 as ->. apply Nat.eqb_eq in H2 as ->.
        repeat split; try assumption. apply list_elem_of_In. assumption.
      * intros (_ & _ & Hin). f_equal. apply existsb_exists. exists (r, c).
        split; [apply list_elem_of_In; assumption|]. simpl.
        rewrite !Nat.eqb_refl. reflexivity.
    + apply lookup_ge_None in Hc. rewrite length_seq in Hc.
      split; [discriminate | lia].
  - apply lookup_ge_None in Hr. rewrite length_seq in Hr.
    split; [discriminate | lia].
Qed.
(** ** Masks of an image of bounded size *)

Lemma sum_imap_le {A} (F : nat -> A -> nat) (l : list A) (B : nat) :
  (forall i x, l !! i = Some x -> (F i x <= B)%nat) ->
  (sum_list (imap F l) <= length l * B)%nat.
Proof.
  revert F. induction l as [|x l IH]; intros F HF; [simpl; lia|].
  cbn [imap sum_list_with length].
  pose proof (HF 0%nat x eq_refl) as H0.
  pose proof (IH (F ∘ S) (fun i y Hy => HF (S i) y Hy)) as Hl.
  change (Datatypes.id (F 0%nat x)) with (F 0%nat x).
  change (S (length l) * B)%nat with (B + length l * B)%nat. lia.
Qed.

Lemma sum_true_le (f : nat -> nat -> nat) (h w B : nat) (m : mask) :
  shape h w m ->
  (forall r c, (r < h)%nat -> (c < w)%nat -> (f r c <= B)%nat) ->
  (sum_true f m <= h * (w * B))%nat.
Proof.
  intros [Hh Hw] Hf. unfold sum_true. rewrite <- Hh. apply sum_imap_le.
  intros r row Hrow.
  rewrite <- (Hw row) by (eapply list_elem_of_lookup_2; eassumption).
  apply sum_imap_le. intros c b Hc. destruct b; [|lia].
  apply Hf.
  - rewrite <- Hh. eapply lookup_lt_Some; eassumption.
  - rewrite <- (Hw row) by (eapply list_elem_of_lookup_2; eassumption).
    eapply lookup_lt_Some; eassumption.
Qed.

(** Every mask of an image of at most [2^17] by [2^17] pixels fits. *)
Lemma shape_fits_binary64 (h w : nat) (m : mask) :
  shape h w m -> Z.of_nat h <= 2 ^ 17 -> Z.of_nat w <= 2 ^ 17 -> fits_binary64 m.
Proof.
  intros Hsh Hh Hw.
  pose proof (sum_true_le (fun _ _ => 1%nat) h w 1 m Hsh ltac:(intros; simpl; lia)) as H1.
  pose proof (sum_true_le (fun r _ => r) h w h m Hsh ltac:(intros; simpl; lia)) as H2.
  pose proof (sum_true_le (fun _ c => c) h w w m Hsh ltac:(intros; simpl; lia)) as H3.
  fold (count_true m) in H1. fold (row_index_sum m) in H2. fold (col_index_sum m) in H3.
  apply Nat2Z.inj_le in H1, H2, H3. rewrite !Nat2Z.inj_mul in H1, H2, H3.
  change (2 ^ 17) with 131072 in *. change (2 ^ 53) with 9007199254740992.
  assert (Hhw : 0 <= Z.of_nat h * Z.of_nat w <= 131072 * 131072) by nia.
  unfold fits_binary64. repeat split; nia.
Qed.

(** ** The centroids and the distance matrix *)

Lemma centroid_loop_valid (rois : list mask) :
  Forall valid_mask rois ->
  exists lx ly, centroid_loop rois = Ok (lx, ly) /\
    length lx = length rois /\ length ly = length rois /\
    Forall (fun x => finite64 x = true) lx /\ Forall (fun y => finite64 y = true) ly.
Proof.
  intros Hvalid.
  destruct (centroid_loop_spec rois) as (lx & ly & Hrun & Hlx & Hly & Hval).
  exists lx, ly. repeat (split; [assumption|]).
  assert (Hfin : forall i m, rois !! i = Some m ->
            finite64 (np_mean (np_where m).2) = true /\
            finite64 (np_mean (np_where m).1) = true).
  { intros i m Him. rewrite Forall_lookup in Hvalid.
    destruct (Hvalid i m Him) as [Hne Hfits].
    pose proof (nonempty_count m Hne) as Hcount.
    rewrite np_mean_rows, np_mean_cols by assumption.
    destruct Hfits as (Hc & Hr & Hc'). split; apply mean_of_finite; assumption. }
  split; apply Forall_lookup; intros i x Hx.
  - destruct (lookup_lt_is_Some_2 rois i) as [m Him];
      [rewrite <- Hlx; eapply lookup_lt_Some; eassumption|].
    destruct (Hval i m Him) as [Hxi _]. rewrite Hxi in Hx. injection Hx as <-.
    apply (Hfin i m Him).
  - destruct (lookup_lt_is_Some_2 rois i) as [m Him];
      [rewrite <- Hly; eapply lookup_lt_Some; eassumption|].
    destruct (Hval i m Him) as [_ Hyi]. rewrite Hyi in Hx. injection Hx as <-.
    apply (Hfin i m Him).
Qed.

(** For finite centroids the matrix is symmetric and non-negative and has
    a zero diagonal, with [==] and [<=] as binary64 comparisons. *)
Lemma distance_loop_finite (n : nat) (lx ly : list float) :
  length lx = n -> length ly = n ->
  Forall (fun x => finite64 x = true) lx -> Forall (fun y => finite64 y = true) ly ->
  exists d, distance_loop n lx ly = Ok d /\
    forall i j, (i < n)%nat -> (j < n)%nat ->
      exists dii dij dji,
        entry d i i = Some dii /\ entry d i j = Some dij /\ entry d j i = Some dji /\
        (dii =? 0)%float = true /\ (dij =? dji)%float = true /\ (0 <=? dij)%float = true.
Proof.
  intros Hlx Hly Hfx Hfy.
  destruct (distance_loop_spec n lx ly Hlx Hly) as (d & Hrun & _ & Hent).
  exists d. split; [assumption|]. intros i j Hi Hj.
  read_at lx i xi Hxi.
  read_at lx j xj Hxj.
  read_at ly i yi Hyi.
  read_at ly j yj Hyj.
  rewrite Forall_lookup in Hfx, Hfy.
  pose proof (Hfx i xi Hxi) as Fxi. pose proof (Hfx j xj Hxj) as Fxj.
  pose proof (Hfy i yi Hyi) as Fyi. pose proof (Hfy j yj Hyj) as Fyj.
  exists (euclid xi xi yi yi), (euclid xi xj yi yj), (euclid xj xi yj yi).
  repeat (split; [apply Hent; assumption|]).
  pose proof (euclid_nonneg xi xj yi yj Fxi Fxj Fyi Fyj) as Hnn.
  split; [|split].
  - rewrite euclid_diag by assumption. reflexivity.
  - rewrite (euclid_swap xj xi yj yi). apply eqb_refl.
    unfold nonneg64 in Hnn. rewrite Hnn. discriminate.
  - apply leb_zero. assumption.
Qed.

(** ** The distance in exact arithmetic *)




(** * The claims *)

(** C1. Flattening two matrices of one shape gives index-paired sequences:
    element [k] of either sequence is the entry at the same (row, column)
    position, the [k]-th position above the diagonal; for the matrices
    [M1[i][j] = i*N + j] and [M2[i][j] = 100 + i*N + j] the two sequences
    differ by 100 at every index. *)
Theorem flatten_upper_index_paired :
  (forall (A B : Type) (n : nat) (a : list (list A)) (b : list (list B)),
     shape n n a -> shape n n b ->
     exists la lb, flatten_upper n a = Ok la /\ flatten_upper n b = Ok lb /\
       length la = length lb /\
       forall k va vb, la !! k = Some va -> lb !! k = Some vb ->
         exists i j, upper_pairs n !! k = Some (i, j) /\
                     entry a i j = Some va /\ entry b i j = Some vb) /\
  (forall n : nat,
     exists flat1 flat2,
       flatten_upper n (ramp n 0) = Ok flat1 /\
       flatten_upper n (ramp n 100) = Ok flat2 /\
       length flat1 = length flat2 /\
       forall k v1 v2, flat1 !! k = Some v1 -> flat2 !! k = Some v2 -> v2 - v1 = 100).
Proof.
  split.
  - intros A B n a b. apply flatten_upper_paired.
  - intros n.
    destruct (flatten_upper_paired n (ramp n 0) (ramp n 100))
      as (l1 & l2 & H1 & H2 & Hlen & Hpair); try apply shape_ramp.
    exists l1, l2. repeat (split; [assumption|]).
    intros k v1 v2 Hv1 Hv2.
    destruct (Hpair k v1 v2 Hv1 Hv2) as (i & j & _ & He1 & He2).
    apply entry_ramp in He1, He2. lia.
Qed.

Lemma flatten_upper_index_paired_witness :
  exists la lb, flatten_upper 2 [[1; 2]; [3; 4]] = Ok la /\
                flatten_upper 2 [[true; false]; [false; true]] = Ok lb /\
    length la = length lb /\
    forall k va vb, la !! k = Some va -> lb !! k = Some vb ->
      exists i j, upper_pairs 2 !! k = Some (i, j) /\
                  entry [[1; 2]; [3; 4]] i j = Some va /\
                  entry [[true; false]; [false; true]] i j = Some vb.
Proof.
  apply (proj1 flatten_upper_index_paired Z bool 2%nat).
  - apply shape_Forall. split; [reflexivity | repeat constructor].
  - apply shape_Forall. split; [reflexivity | repeat constructor].
Defined.

(** C2, as the code behaves. A mask with no true entry raises nothing: the
    means are taken over empty index arrays, and both coordinates of its
    centroid are NaN. *)
Theorem empty_mask_centroid_nan (rois : list mask) (i : nat) (m : mask) :
  rois !! i = Some m ->
  (forall r c, entry m r c <> Some true) ->
  exists loc_x loc_y,
    centroid_loop rois = Ok (loc_x, loc_y) /\
    loc_x !! i = Some nan /\ loc_y !! i = Some nan.
Proof.
  intros Him Hempty.
  destruct (centroid_loop_spec rois) as (lx & ly & Hrun & _ & _ & Hval).
  exists lx, ly. split; [assumption|].
  destruct (Hval i m Him) as [Hx Hy].
  rewrite (empty_np_where m Hempty) in Hx, Hy. split; assumption.
Qed.

Lemma empty_mask_centroid_nan_witness :
  exists loc_x loc_y,
    centroid_loop [pixel_mask 2 2 [(0, 1)]; pixel_mask 2 2 []]%nat = Ok (loc_x, loc_y) /\
    loc_x !! 1%nat = Some nan /\ loc_y !! 1%nat = Some nan.
Proof.
  apply (empty_mask_centroid_nan _ 1%nat (pixel_mask 2 2 [])).
  - reflexivity.
  - intros [|[|r]] [|[|c]]; vm_compute; discriminate.
Defined.

(** C2, the claim as stated, fails: on an all-false mask the extractor does
    not raise, it returns the centroid (NaN, NaN). *)
Lemma empty_mask_not_rejected :
  centroid_loop [pixel_mask 2 2 []] = Ok ([nan], [nan]) /\
  ~ raises (centroid_loop [pixel_mask 2 2 []]).
Proof.
  assert (H : centroid_loop [pixel_mask 2 2 []] = Ok ([nan], [nan]))
    by (vm_compute; reflexivity).
  split; [exact H|]. rewrite H. intros [e He]. discriminate He.
Qed.



(** C4. For masks that all have a true entry (and whose pixel count and
    index sums stay in the exact integer range of binary64) the distance
    matrix has a zero diagonal and is symmetric: [D[i][i] == 0] and
    [D[i][j] == D[j][i]]. *)
Theorem distance_symmetric_zero_diagonal (rois : list mask) :
  Forall valid_mask rois ->
  exists loc_x loc_y distance,
    step6 rois = Ok (loc_x, loc_y, distance) /\
    forall i j, (i < length rois)%nat -> (j < length rois)%nat ->
      exists dii dij dji,
        entry distance i i = Some dii /\
        entry distance i j = Some dij /\
        entry distance j i = Some dji /\
        (dii =? 0)%float = true /\ (dij =? dji)%float = true.
Proof.
  intros Hvalid.
  destruct (centroid_loop_valid rois Hvalid) as (lx & ly & Hrun & Hlx & Hly & Hfx & Hfy).
  destruct (distance_loop_finite (length rois) lx ly Hlx Hly Hfx Hfy) as (d & Hd & Hent).
  exists lx, ly, d. split.
  - unfold step6. rewrite Hrun. simpl. rewrite Hd. reflexivity.
  - intros i j Hi Hj.
    destruct (Hent i j Hi Hj) as (dii & dij & dji & H1 & H2 & H3 & H4 & H5 & _).
    exists dii, dij, dji. auto.
Qed.

Lemma distance_symmetric_zero_diagonal_witness :
  exists loc_x loc_y distance,
    step6 [pixel_mask 3 3 [(0, 0); (1, 2)]; pixel_mask 3 3 [(2, 1)]]%nat
    = Ok (loc_x, loc_y, distance) /\
    forall i j, (i < 2)%nat -> (j < 2)%nat ->
      exists dii dij dji,
        entry distance i i = Some dii /\
        entry distance i j = Some dij /\
        entry distance j i = Some dji /\
        (dii =? 0)%float = true /\ (dij =? dji)%float = true.
Proof.
  apply (distance_symmetric_zero_diagonal
           [pixel_mask 3 3 [(0, 0); (1, 2)]; pixel_mask 3 3 [(2, 1)]]%nat).
  repeat constructor.
  - exists 0%nat, 0%nat. reflexivity.
  - exists 2%nat, 1%nat. reflexivity.
Defined.

(** C5. For a mask with a true entry, [loc_y] holds the mean of the row
    indices of the true entries and [loc_x] the mean of their column
    indices: the centroid, read as (row, column), is [(loc_y[i], loc_x[i])].
    Each mean is the exact index sum divided by the exact count. *)
Theorem centroid_is_index_mean (rois : list mask) (i : nat) (m : mask) :
  rois !! i = Some m -> nonempty m -> fits_binary64 m ->
  exists loc_x loc_y,
    centroid_loop rois = Ok (loc_x, loc_y) /\
    loc_y !! i = Some (mean_of (row_index_sum m) (count_true m)) /\
    loc_x !! i = Some (mean_of (col_index_sum m) (count_true m)) /\
    finite64 (mean_of (row_index_sum m) (count_true m)) = true /\
    finite64 (mean_of (col_index_sum m) (count_true m)) = true.
Proof.
  intros Him Hne Hfits.
  destruct (centroid_loop_spec rois) as (lx & ly & Hrun & _ & _ & Hval).
  exists lx, ly. split; [assumption|].
  destruct (Hval i m Him) as [Hx Hy].
  rewrite np_mean_cols in Hx by assumption. rewrite np_mean_rows in Hy by assumption.
  split; [assumption|]. split; [assumption|].
  pose proof (nonempty_count m Hne) as Hcount.
  destruct Hfits as (Hc & Hr & Hc').
  split; apply mean_of_finite; assumption.
Qed.

Lemma centroid_is_index_mean_witness :
  exists loc_x loc_y,
    centroid_loop [pixel_mask 3 3 [(0, 0); (1, 2)]]%nat = Ok (loc_x, loc_y) /\
    loc_y !! 0%nat
    = Some (mean_of (row_index_sum (pixel_mask 3 3 [(0, 0); (1, 2)]%nat))
                    (count_true (pixel_mask 3 3 [(0, 0); (1, 2)]%nat))) /\
    loc_x !! 0%nat
    = Some (mean_of (col_index_sum (pixel_mask 3 3 [(0, 0); (1, 2)]%nat))
                    (count_true (pixel_mask 3 3 [(0, 0); (1, 2)]%nat))) /\
    finite64 (mean_of (row_index_sum (pixel_mask 3 3 [(0, 0); (1, 2)]%nat))
                      (count_true (pixel_mask 3 3 [(0, 0); (1, 2)]%nat))) = true /\
    finite64 (mean_of (col_index_sum (pixel_mask 3 3 [(0, 0); (1, 2)]%nat))
                      (count_true (pixel_mask 3 3 [(0, 0); (1, 2)]%nat))) = true.
Proof.
  apply (centroid_is_index_mean _ 0%nat).
  - reflexivity.
  - exists 0%nat, 0%nat. reflexivity.
  - repeat split.
Defined.

(** C6. On an [N] by [N] matrix the flattener returns the [N(N-1)/2]
    entries at the positions whose column index exceeds the row index, in
    row-major order, every such position once and no diagonal position. *)
Theorem flatten_upper_strict_triangle {A} (n : nat) (a : list (list A)) :
  shape n n a ->
  exists l, flatten_upper n a = Ok l /\
    Forall2 (fun p v => entry a p.1 p.2 = Some v) (upper_pairs n) l /\
    length l = (n * (n - 1) / 2)%nat /\
    (forall i j, (i, j) ∈ upper_pairs n <-> (i < j < n)%nat) /\
    StronglySorted row_major_lt (upper_pairs n) /\
    NoDup (upper_pairs n).
Proof.
  intros Hsh. destruct (flatten_upper_spec n a Hsh) as (l & Hl & Hall).
  exists l. split; [assumption|]. split; [assumption|]. split.
  - rewrite <- (Forall2_length _ _ _ Hall). apply length_upper_pairs.
  - split; [apply elem_of_upper_pairs|].
    split; [apply upper_pairs_sorted | apply NoDup_upper_pairs].
Qed.

Lemma flatten_upper_strict_triangle_witness :
  exists l, flatten_upper 3 [[1; 2; 3]; [4; 5; 6]; [7; 8; 9]] = Ok l /\
    Forall2 (fun p v => entry [[1; 2; 3]; [4; 5; 6]; [7; 8; 9]] p.1 p.2 = Some v)
            (upper_pairs 3) l /\
    length l = (3 * (3 - 1) / 2)%nat /\
    (forall i j, (i, j) ∈ upper_pairs 3 <-> (i < j < 3)%nat) /\
    StronglySorted row_major_lt (upper_pairs 3) /\
    NoDup (upper_pairs 3).
Proof.
  apply (flatten_upper_strict_triangle 3%nat).
  apply shape_Forall. split; [reflexivity | repeat constructor].
Defined.

(** C8. Three masks whose only true pixels are (0,0), (0,3) and (4,0):
    the centroids, read as (row, column) = [(loc_y[i], loc_x[i])], are
    (0,0), (0,3) and (4,0), and the distance matrix is that of the 3-4-5
    triangle, [[0,3,4],[3,0,5],[4,5,0]], exactly. *)
Theorem three_four_five (m0 m1 m2 : mask) :
  (forall r c, entry m0 r c = Some true <-> (r, c) = (0, 0)%nat) ->
  (forall r c, entry m1 r c = Some true <-> (r, c) = (0, 3)%nat) ->
  (forall r c, entry m2 r c = Some true <-> (r, c) = (4, 0)%nat) ->
  step6 [m0; m1; m2]
  = Ok ([0; 3; 0]%float, [0; 0; 4]%float,
        [[0; 3; 4]; [3; 0; 5]; [4; 5; 0]]%float).
Proof.
  intros H0 H1 H2. unfold step6. rewrite centroid_loop_map. cbn [fmap list_fmap].
  rewrite (np_where_single _ _ _ H0), (np_where_single _ _ _ H1),
    (np_where_single _ _ _ H2).
  vm_compute. reflexivity.
Qed.

Lemma three_four_five_witness :
  step6 [pixel_mask 5 4 [(0, 0)]; pixel_mask 5 4 [(0, 3)]; pixel_mask 5 4 [(4, 0)]]%nat
  = Ok ([0; 3; 0]%float, [0; 0; 4]%float,
        [[0; 3; 4]; [3; 0; 5]; [4; 5; 0]]%float).
Proof.
  apply three_four_five; intros r c; rewrite entry_pixel_mask, list_elem_of_singleton;
    (split; [intros (_ & _ & H); exact H | intros [= -> ->]; repeat split; lia]).
Defined.




(** * Further properties of the cells *)

(** ** Step 6 as a whole *)

Lemma step6_runs (rois : list mask) :
  exists lx ly d,
    centroid_loop rois = Ok (lx, ly) /\
    distance_loop (length rois) lx ly = Ok d /\
    step6 rois = Ok (lx, ly, d) /\
    length lx = length rois /\ length ly = length rois /\
    shape (length rois) (length rois) d /\
    (forall i j xi xj yi yj,
        lx !! i = Some xi -> lx !! j = Some xj ->
        ly !! i = Some yi -> ly !! j = Some yj ->
        entry d i j = Some (euclid xi xj yi yj)) /\
    (forall i m, rois !! i = Some m ->
        lx !! i = Some (np_mean (np_where m).2) /\
        ly !! i = Some (np_mean (np_where m).1)).
Proof.
  destruct (centroid_loop_spec rois) as (lx & ly & Hrun & Hlx & Hly & Hval).
  destruct (distance_loop_spec (length rois) lx ly Hlx Hly) as (d & Hd & Hsh & Hent).
  exists lx, ly, d. repeat (split; [assumption|]).
  split; [|auto 10].
  unfold step6. rewrite Hrun. simpl. rewrite Hd. reflexivity.
Qed.


(** X2. [np.where] returns two index arrays of one length, the number of
    true entries; paired up, they are the positions of exactly the true
    entries, in row-major order and without repetition. *)
Theorem np_where_true_positions (m : mask) :
  length (np_where m).1 = count_true m /\
  length (np_where m).2 = count_true m /\
  (forall r c, (r, c) ∈ zip (np_where m).1 (np_where m).2 <-> entry m r c = Some true) /\
  StronglySorted row_major_lt (zip (np_where m).1 (np_where m).2) /\
  NoDup (zip (np_where m).1 (np_where m).2).
Proof.
  split; [apply np_where_rows|]. split; [apply np_where_cols|].
  unfold np_where. cbn [fst snd]. rewrite zip_fst_snd.
  split; [apply elem_of_positions|].
  split; [apply positions_sorted|].
  apply (sorted_NoDup row_major_lt); [apply row_major_lt_irrefl | apply positions_sorted].
Qed.

(** ** NaN centroids *)

Lemma euclid_nan_l (xj yi yj : float) : euclid nan xj yi yj = nan.
Proof.
  apply Prim2SF_inj. unfold euclid, pow2.
  rewrite FloatAxioms.sqrt_spec, FloatAxioms.add_spec, !FloatAxioms.mul_spec,
    !FloatAxioms.sub_spec.
  change (Prim2SF nan) with S754_nan.
  destruct (Prim2SF xj); reflexivity.
Qed.

Lemma euclid_nan_r (xi yi yj : float) : euclid xi nan yi yj = nan.
Proof. rewrite euclid_swap. apply euclid_nan_l. Qed.

(** X3. An ROI whose mask has no true entry makes its whole row and its
    whole column of the distance matrix NaN, the diagonal entry included. *)
Theorem empty_mask_poisons_row_and_column (rois : list mask) (i : nat) (m : mask) :
  rois !! i = Some m ->
  (forall r c, entry m r c <> Some true) ->
  exists loc_x loc_y distance,
    step6 rois = Ok (loc_x, loc_y, distance) /\
    forall j, (j < length rois)%nat ->
      entry distance i j = Some nan /\ entry distance j i = Some nan.
Proof.
  intros Him Hempty.
  destruct (step6_runs rois) as (lx & ly & d & _ & _ & H & Hlx & Hly & _ & Hent & Hval).
  exists lx, ly, d. split; [assumption|]. intros j Hj.
  destruct (Hval i m Him) as [Hxi Hyi].
  rewrite (empty_np_where m Hempty) in Hxi, Hyi.
  change (np_mean ([], []).2) with nan in Hxi. change (np_mean ([], []).1) with nan in Hyi.
  read_at lx j xj Hxj. read_at ly j yj Hyj.
  rewrite (Hent i j nan xj nan yj), (Hent j i xj nan yj nan) by assumption.
  rewrite euclid_nan_l, euclid_nan_r. auto.
Qed.

Lemma empty_mask_poisons_row_and_column_witness :
  exists loc_x loc_y distance,
    step6 [pixel_mask 2 2 [(0, 1)]; pixel_mask 2 2 []]%nat = Ok (loc_x, loc_y, distance) /\
    forall j, (j < 2)%nat ->
      entry distance 1 j = Some nan /\ entry distance j 1 = Some nan.
Proof.
  refine (empty_mask_poisons_row_and_column
            [pixel_mask 2 2 [(0, 1)]; pixel_mask 2 2 []]%nat 1%nat (pixel_mask 2 2 [])
            eq_refl _).
  intros [|[|r]] [|[|c]]; vm_compute; discriminate.
Defined.

(** ** Reading a matrix of another size *)

Lemma take_pairs_raises {A} (a : list (list A)) (ps : list (nat * nat)) (p : nat * nat) :
  p ∈ ps -> entry a p.1 p.2 = None -> take_pairs a ps.*1 ps.*2 = Raise IndexError.
Proof.
  intros Hin Hp. induction ps as [|q ps IH]; [inversion Hin|].
  csimpl. destruct (getitem2 a q.1 q.2) as [v|[]] eqn:Hq; [|reflexivity].
  simpl. apply elem_of_cons in Hin as [-> | Hin].
  - unfold getitem2, getitem, entry in *.
    destruct (a !! q.1) as [row|]; simpl in *; [|discriminate].
    rewrite Hp in Hq. discriminate.
  - rewrite (IH Hin). reflexivity.
Qed.

Lemma entry_None_rows {A} r c (a : list (list A)) i j :
  shape r c a -> (r <= i)%nat -> entry a i j = None.
Proof.
  intros [Hr _] Hi. unfold entry. rewrite (proj2 (lookup_ge_None a i)) by lia. reflexivity.
Qed.

Lemma entry_None_cols {A} r c (a : list (list A)) i j :
  shape r c a -> (c <= j)%nat -> entry a i j = None.
Proof.
  intros [_ Hc] Hj. unfold entry. destruct (a !! i) as [row|] eqn:Hrow; [|reflexivity].
  simpl. apply lookup_ge_None. rewrite (Hc row); [lia|].
  eapply list_elem_of_lookup_2; eassumption.
Qed.

(** X4. With [num_cells >= 2], a matrix with fewer than [num_cells - 1]
    rows or fewer than [num_cells] columns cannot be flattened: the index
    arrays reach outside it and the subscript raises [IndexError]. *)
Theorem flatten_upper_too_small {A} (n r c : nat) (a : list (list A)) :
  shape r c a -> (2 <= n)%nat -> (r < n - 1 \/ c < n)%nat ->
  flatten_upper n a = Raise IndexError.
Proof.
  intros Hsh Hn Hsmall. unfold flatten_upper. rewrite triu_indices_1. cbn [fst snd].
  destruct Hsmall as [Hr | Hc].
  - apply (take_pairs_raises a _ (n - 2, n - 1)%nat).
    + apply elem_of_upper_pairs. lia.
    + apply (entry_None_rows r c); [assumption | simpl; lia].
  - apply (take_pairs_raises a _ (0, n - 1)%nat).
    + apply elem_of_upper_pairs. lia.
    + apply (entry_None_cols r c); [assumption | simpl; lia].
Qed.

Lemma flatten_upper_too_small_witness :
  flatten_upper 3 [[1; 2]; [3; 4]] = Raise IndexError.
Proof.
  apply (flatten_upper_too_small 3 2 2);
    [apply shape_Forall; split; [reflexivity | repeat constructor] | lia | lia].
Defined.

(** X5. A matrix with more rows and columns than [num_cells] raises
    nothing: the flattener silently reads the upper triangle of its leading
    [num_cells] by [num_cells] block, [num_cells (num_cells - 1) / 2]
    entries. *)
Theorem flatten_upper_larger_matrix {A} (n r c : nat) (a : list (list A)) :
  shape r c a -> (n <= r)%nat -> (n <= c)%nat ->
  exists l, flatten_upper n a = Ok l /\
    Forall2 (fun p v => entry a p.1 p.2 = Some v) (upper_pairs n) l /\
    length l = (n * (n - 1) / 2)%nat.
Proof.
  intros Hsh Hr Hc. unfold flatten_upper. rewrite triu_indices_1. cbn [fst snd].
  destruct (take_pairs_spec a (upper_pairs n)) as (l & Hl & Hall).
  - intros [i j] Hp. apply elem_of_upper_pairs in Hp.
    apply (shape_entry r c); simpl; [assumption | lia | lia].
  - exists l. split; [assumption|]. split; [assumption|].
    rewrite <- (Forall2_length _ _ _ Hall). apply length_upper_pairs.
Qed.

Lemma flatten_upper_larger_matrix_witness :
  exists l, flatten_upper 2 [[1; 2; 3]; [4; 5; 6]; [7; 8; 9]] = Ok l /\
    Forall2 (fun p v => entry [[1; 2; 3]; [4; 5; 6]; [7; 8; 9]] p.1 p.2 = Some v)
            (upper_pairs 2) l /\
    length l = (2 * (2 - 1) / 2)%nat.
Proof.
  apply (flatten_upper_larger_matrix 2 3 3);
    [apply shape_Forall; split; [reflexivity | repeat constructor] | lia | lia].
Defined.

(** X6. With at most one cell there is no pair: the flattened sequence is
    empty and nothing is read, so no matrix, not even an empty one, raises. *)
Theorem flatten_upper_no_pairs {A} (n : nat) (a : list (list A)) :
  (n <= 1)%nat -> flatten_upper n a = Ok [].
Proof.
  intros Hn. assert (Hcase : n = 0%nat \/ n = 1%nat) by lia.
  destruct Hcase as [-> | ->]; reflexivity.
Qed.

Lemma flatten_upper_no_pairs_witness : flatten_upper 1 ([] : list (list Z)) = Ok [].
Proof. apply (flatten_upper_no_pairs 1%nat). lia. Defined.

(** ** More binary64 arithmetic *)

Lemma SFadd_comm (u v : spec_float) : SF64add u v = SF64add v u.
Proof.
  unfold SF64add.
  destruct u as [su|su| |su mu eu], v as [sv|sv| |sv mv ev];
    try reflexivity; try (destruct su, sv; reflexivity).
  unfold SFadd. rewrite (Z.min_comm ev eu). f_equal. apply Z.add_comm.
Qed.

(** Exchanging the two coordinates does not change the distance. *)
Lemma euclid_exchange (xi xj yi yj : float) : euclid xi xj yi yj = euclid yi yj xi xj.
Proof.
  unfold euclid. f_equal. apply Prim2SF_inj.
  rewrite !FloatAxioms.add_spec. apply SFadd_comm.
Qed.

(** Dividing by a power of two only moves the exponent. *)
Lemma SFdiv_pow2 (s : bool) (m : positive) (e : Z) (t : nat) :
  Z.pos (digits2_pos m) = 53 -> (t <= 52)%nat ->
  -1021 <= e - Z.of_nat t + 52 -> -1074 <= e - Z.of_nat t <= 971 ->
  SF64div (S754_finite s m e) (canon (pshl 1 t)) = S754_finite s m (e - Z.of_nat t).
Proof.
  intros Hm Ht He1 He2. unfold canon. cbv zeta.
  rewrite digits_pshl. change (Z.pos (digits2_pos 1)) with 1.
  rewrite pshl_pshl.
  replace (t + Z.to_nat (53 - (1 + Z.of_nat t)))%nat with 52%nat by lia.
  assert (Hd2 : Z.pos (digits2_pos (pshl 1 52)) = 53) by reflexivity.
  unfold SF64div, SFdiv, SFdiv_core_binary. cbn [Zdigits2]. rewrite Hm, Hd2.
  rewrite fexp_normal by lia.
  replace (Z.min (53 + e - (53 + (1 + Z.of_nat t - 53)) - 53) (e - (1 + Z.of_nat t - 53)))
    with (e - Z.of_nat t - 1) by lia.
  replace (e - (1 + Z.of_nat t - 53) - (e - Z.of_nat t - 1)) with 53 by lia.
  change (Z.pos (pshl 1 52)) with 4503599627370496.
  pose proof (Z_div_mod (Z.shiftl (Z.pos m) 53) 4503599627370496 ltac:(lia)) as Hdm.
  destruct (Z.div_eucl (Z.shiftl (Z.pos m) 53) 4503599627370496) as [q r].
  destruct Hdm as [Hdm Hr].
  rewrite Z.shiftl_mul_pow2 in Hdm by lia. change (2 ^ 53) with 9007199254740992 in Hdm.
  assert (Hq : q = Z.pos (pshl m 1)) by (rewrite pshl_Z; change (2 ^ Z.of_nat 1) with 2; lia).
  assert (Hr0 : r = 0) by lia.
  subst q r. change (new_location 4503599627370496 0) with loc_Exact.
  rewrite binary_round_aux_exact by (try assumption; simpl; lia).
  rewrite xorb_false_r. f_equal. simpl. lia.
Qed.

(** The quotient of two non-negative numbers is not negative. *)
Lemma SFdiv_exact_sign (a b : Z) :
  0 <= a -> 0 < b -> sign_of (SF64div (Z2SF a) (Z2SF b)) = Some false.
Proof.
  intros Ha Hb. destruct b as [|q|q]; try lia.
  destruct a as [|p|p]; try lia; [reflexivity|].
  cbn [Z2SF]. unfold canon. cbv zeta.
  unfold SF64div, SFdiv, SFdiv_core_binary. cbn [xorb].
  set (m' := match _ with Z.pos _ => _ | Z0 => _ | Z.neg _ => _ end).
  assert (Hm' : 0 <= m').
  { subst m'. destruct (_ - _) as [|t|t]; try lia. apply Z.shiftl_nonneg. lia. }
  set (m2 := Z.pos (pshl q _)) in *.
  pose proof (Z_div_mod m' m2 ltac:(subst m2; lia)) as Hdm.
  destruct (Z.div_eucl m' m2) as [qq rr]. destruct Hdm as [Hdm Hrr].
  apply binary_round_aux_sign. subst m2. nia.
Qed.

Lemma mean_of_nonneg (s n : nat) :
  Z.of_nat s < 2 ^ 53 -> (0 < n)%nat -> Z.of_nat n < 2 ^ 53 -> nonneg64 (mean_of s n).
Proof.
  intros Hs Hn Hn'. unfold nonneg64, mean_of.
  rewrite FloatAxioms.div_spec, !of_Z_exact by lia.
  apply SFdiv_exact_sign; lia.
Qed.

(** The mean of a single index is the index. *)
Lemma np_mean_single (c : nat) : Z.of_nat c < 2 ^ 53 -> np_mean [c] = of_intp c.
Proof.
  intros Hc. rewrite np_mean_exact by (simpl; lia).
  simpl sum_list_with. simpl length. rewrite Nat.add_0_r. unfold of_intp.
  apply Prim2SF_inj. rewrite FloatAxioms.div_spec, !of_Z_exact by lia.
  destruct (Z.of_nat c) as [|p|p] eqn:Hp; [reflexivity | | lia].
  pose proof (digits_le p 53 ltac:(lia)) as Hd.
  change (Z2SF (Z.of_nat 1)) with (canon (pshl 1 0)).
  cbn [Z2SF]. unfold canon at 1 3. cbv zeta.
  rewrite SFdiv_pow2; [f_equal; lia | apply digits_canon; assumption | lia | lia | lia].
Qed.

(** ** The distance matrix and its upper triangle *)

Lemma shape_entry_ext {A} n m (a b : list (list A)) :
  shape n m a -> shape n m b ->
  (forall i j, (i < n)%nat -> (j < m)%nat -> entry a i j = entry b i j) ->
  a = b.
Proof.
  intros Ha Hb Heq.
  apply list_eq_same_length with n; [apply Hb | apply Ha |].
  intros i ra rb Hi Hra Hrb.
  apply list_eq_same_length with m.
  - apply Hb. eapply list_elem_of_lookup_2; eassumption.
  - apply Ha. eapply list_elem_of_lookup_2; eassumption.
  - intros j x y Hj Hx Hy. specialize (Heq i j Hi Hj).
    unfold entry in Heq. rewrite Hra, Hrb in Heq. simpl in Heq. congruence.
Qed.

Lemma eqb_true_refl (x y : float) : (x =? y)%float = true -> (x =? x)%float = true.
Proof.
  rewrite FloatAxioms.eqb_spec. intros H. apply eqb_refl.
  destruct (Prim2SF x); discriminate.
Qed.

(** X7. The distance matrix does not depend on which coordinate array is
    called x and which y: exchanging [loc_x] and [loc_y] gives the same
    matrix, entry for entry. *)
Theorem distance_loop_exchange (n : nat) (loc_x loc_y : list float) :
  length loc_x = n -> length loc_y = n ->
  distance_loop n loc_y loc_x = distance_loop n loc_x loc_y.
Proof.
  intros Hlx Hly.
  destruct (distance_loop_spec n loc_x loc_y Hlx Hly) as (d1 & -> & Hsh1 & Hent1).
  destruct (distance_loop_spec n loc_y loc_x Hly Hlx) as (d2 & -> & Hsh2 & Hent2).
  f_equal. apply (shape_entry_ext n n); [assumption | assumption |].
  intros i j Hi Hj.
  read_at loc_x i xi Hxi. read_at loc_x j xj Hxj.
  read_at loc_y i yi Hyi. read_at loc_y j yj Hyj.
  rewrite (Hent1 i j xi xj yi yj), (Hent2 i j yi yj xi xj) by assumption.
  f_equal. apply euclid_exchange.
Qed.

Lemma distance_loop_exchange_witness :
  distance_loop 2 [4; 0]%float [0; 3]%float = distance_loop 2 [0; 3]%float [4; 0]%float.
Proof. apply (distance_loop_exchange 2 [0; 3]%float [4; 0]%float); reflexivity. Defined.


(** X9. For valid masks, taking the upper triangle loses no distance:
    every off-diagonal entry of the matrix is equal ([==]) to an entry of
    [distance_vector], and every entry of the vector is [>= 0]. *)
Theorem distance_vector_covers_matrix (rois : list mask) :
  Forall valid_mask rois ->
  exists loc_x loc_y distance v,
    step6 rois = Ok (loc_x, loc_y, distance) /\
    distance_vector rois = Ok v /\
    (forall x, x ∈ v -> (0 <=? x)%float = true) /\
    forall i j, (i < length rois)%nat -> (j < length rois)%nat -> i <> j ->
      exists dij k x,
        entry distance i j = Some dij /\ v !! k = Some x /\ (dij =? x)%float = true.
Proof.
  intros Hvalid.
  destruct (centroid_loop_valid rois Hvalid) as (lx & ly & Hrun & Hlx & Hly & Hfx & Hfy).
  destruct (distance_loop_finite (length rois) lx ly Hlx Hly Hfx Hfy) as (d & Hd & Hprop).
  destruct (distance_loop_spec (length rois) lx ly Hlx Hly) as (d' & Hd' & Hsh & _).
  rewrite Hd in Hd'. injection Hd' as <-.
  destruct (flatten_upper_spec (length rois) d Hsh) as (v & Hv & Hall).
  assert (H6 : step6 rois = Ok (lx, ly, d)).
  { unfold step6. rewrite Hrun. simpl. rewrite Hd. reflexivity. }
  exists lx, ly, d, v. split; [assumption|]. split.
  { unfold distance_vector. rewrite H6. exact Hv. }
  assert (Hup : forall i j, (i < j < length rois)%nat ->
            exists k x, v !! k = Some x /\ entry d i j = Some x).
  { intros i j Hij. apply elem_of_upper_pairs, list_elem_of_lookup in Hij as [k Hk].
    destruct (Forall2_lookup_l _ _ _ _ _ Hall Hk) as (x & Hx & He).
    exists k, x. auto. }
  split.
  - intros x Hx. apply list_elem_of_lookup in Hx as [k Hk].
    destruct (Forall2_lookup_r _ _ _ _ _ Hall Hk) as ([i j] & Hp & He). simpl in He.
    assert (Hij : (i < j < length rois)%nat).
    { apply elem_of_upper_pairs. eapply list_elem_of_lookup_2; eassumption. }
    destruct (Hprop i j) as (_ & dij & _ & _ & Hdij & _ & _ & _ & Hnn); [lia | lia |].
    congruence.
  - intros i j Hi Hj Hne.
    destruct (Hprop i j Hi Hj) as (_ & dij & dji & _ & Hdij & Hdji & _ & Hsym & _).
    destruct (Nat.lt_ge_cases i j) as [Hlt | Hge].
    + destruct (Hup i j) as (k & x & Hk & He); [lia|].
      exists dij, k, x. split; [assumption|]. split; [assumption|].
      assert (x = dij) by congruence. subst x.
      exact (eqb_true_refl dij dji Hsym).
    + destruct (Hup j i) as (k & x & Hk & He); [lia|].
      exists dij, k, x. split; [assumption|]. split; [assumption|].
      assert (x = dji) by congruence. subst x. assumption.
Qed.

Lemma distance_vector_covers_matrix_witness :
  exists loc_x loc_y distance v,
    step6 [pixel_mask 3 3 [(0, 0); (1, 2)]; pixel_mask 3 3 [(2, 1)]]%nat
    = Ok (loc_x, loc_y, distance) /\
    distance_vector [pixel_mask 3 3 [(0, 0); (1, 2)]; pixel_mask 3 3 [(2, 1)]]%nat = Ok v /\
    (forall x, x ∈ v -> (0 <=? x)%float = true) /\
    forall i j, (i < 2)%nat -> (j < 2)%nat -> i <> j ->
      exists dij k x,
        entry distance i j = Some dij /\ v !! k = Some x /\ (dij =? x)%float = true.
Proof.
  apply (distance_vector_covers_matrix
           [pixel_mask 3 3 [(0, 0); (1, 2)]; pixel_mask 3 3 [(2, 1)]]%nat).
  repeat constructor.
  - exists 0%nat, 0%nat. reflexivity.
  - exists 2%nat, 1%nat. reflexivity.
Defined.

(** ** Centroid coordinates *)

(** X10. An ROI with a single true pixel [(r, c)] has its centroid exactly
    on that pixel: [loc_x] holds [c] and [loc_y] holds [r], with no
    rounding. *)
Theorem single_pixel_centroid (rois : list mask) (i : nat) (m : mask) (r c : nat) :
  rois !! i = Some m ->
  (forall r' c', entry m r' c' = Some true <-> (r', c') = (r, c)) ->
  Z.of_nat r < 2 ^ 53 -> Z.of_nat c < 2 ^ 53 ->
  exists loc_x loc_y,
    centroid_loop rois = Ok (loc_x, loc_y) /\
    loc_x !! i = Some (of_intp c) /\ loc_y !! i = Some (of_intp r).
Proof.
  intros Him Hm Hr Hc.
  destruct (centroid_loop_spec rois) as (lx & ly & Hrun & _ & _ & Hval).
  exists lx, ly. split; [assumption|].
  destruct (Hval i m Him) as [Hx Hy].
  rewrite (np_where_single m r c Hm) in Hx, Hy. cbn [fst snd] in Hx, Hy.
  rewrite np_mean_single in Hx, Hy by assumption. auto.
Qed.

Lemma single_pixel_centroid_witness :
  exists loc_x loc_y,
    centroid_loop [pixel_mask 3 4 [(2, 3)]]%nat = Ok (loc_x, loc_y) /\
    loc_x !! 0%nat = Some (of_intp 3) /\ loc_y !! 0%nat = Some (of_intp 2).
Proof.
  refine (single_pixel_centroid [pixel_mask 3 4 [(2, 3)]]%nat 0 (pixel_mask 3 4 [(2, 3)]%nat)
            2 3 eq_refl _ _ _).
  - intros r c. rewrite entry_pixel_mask, list_elem_of_singleton.
    split; [intros (_ & _ & H); exact H | intros [= -> ->]; repeat split; lia].
  - reflexivity.
  - reflexivity.
Defined.

(** X11. The centroid coordinates of a valid mask are never negative:
    [0 <= loc_x[i]] and [0 <= loc_y[i]]. *)
Theorem centroid_nonnegative (rois : list mask) (i : nat) (m : mask) :
  rois !! i = Some m -> valid_mask m ->
  exists loc_x loc_y xi yi,
    centroid_loop rois = Ok (loc_x, loc_y) /\
    loc_x !! i = Some xi /\ loc_y !! i = Some yi /\
    (0 <=? xi)%float = true /\ (0 <=? yi)%float = true.
Proof.
  intros Him [Hne Hfits].
  destruct (centroid_loop_spec rois) as (lx & ly & Hrun & _ & _ & Hval).
  destruct (Hval i m Him) as [Hx Hy].
  rewrite np_mean_cols in Hx by assumption. rewrite np_mean_rows in Hy by assumption.
  pose proof (nonempty_count m Hne) as Hcount.
  destruct Hfits as (Hc & Hr & Hc').
  eexists lx, ly, _, _. split; [assumption|]. split; [exact Hx|]. split; [exact Hy|].
  split; apply leb_zero, mean_of_nonneg; assumption.
Qed.

Lemma centroid_nonnegative_witness :
  exists loc_x loc_y xi yi,
    centroid_loop [pixel_mask 3 3 [(0, 0); (1, 2)]]%nat = Ok (loc_x, loc_y) /\
    loc_x !! 0%nat = Some xi /\ loc_y !! 0%nat = Some yi /\
    (0 <=? xi)%float = true /\ (0 <=? yi)%float = true.
Proof.
  refine (centroid_nonnegative [pixel_mask 3 3 [(0, 0); (1, 2)]]%nat 0
            (pixel_mask 3 3 [(0, 0); (1, 2)]%nat) eq_refl _).
  split; [exists 0%nat, 0%nat; reflexivity | repeat split].
Defined.

(** ** Part II: the session list *)

Section SessionProofs.
Context {A : Type} `{EqDecision A}.


End SessionProofs.




(** ** Part II: half-integers in binary64 *)

Lemma SFsub_add_opp (x y : spec_float) : SF64sub x y = SF64add x (SFopp y).
Proof.
  unfold SF64sub, SF64add.
  destruct x as [sx|sx| |sx mx ex], y as [sy|sy| |sy my ey];
    try reflexivity; destruct sx, sy; reflexivity.
Qed.

Lemma dyadic_finite (s : bool) (p : positive) (e : Z) :
  Z.pos p < 2 ^ 53 -> -1000 <= e <= 900 ->
  binary_round prec emax s p e
  = S754_finite s (pshl p (Z.to_nat (53 - Z.pos (digits2_pos p))))
                (e + Z.pos (digits2_pos p) - 53).
Proof.
  intros Hp He. pose proof (digits_le p 53 Hp) as Hd.
  change p with (pshl p 0) at 1.
  rewrite binary_round_pshl by (simpl; lia). f_equal. simpl. lia.
Qed.

(** Scaling the integer and the exponent against each other gives the same
    number. *)
Lemma dyadic_shift (z e : Z) (j : nat) :
  Z.abs z < 2 ^ 53 -> -1000 <= e <= 900 ->
  binary_normalize prec emax (z * 2 ^ Z.of_nat j) (e - Z.of_nat j) false
  = binary_normalize prec emax z e false.
Proof.
  intros Hz He. destruct z as [|p|p]; [reflexivity | |].
  - replace (Z.pos p * 2 ^ Z.of_nat j) with (Z.pos (pshl p j)) by apply pshl_Z.
    cbn [binary_normalize]. pose proof (digits_le p 53 ltac:(lia)) as Hd.
    rewrite binary_round_pshl by lia. rewrite dyadic_finite by lia. f_equal. lia.
  - replace (Z.neg p * 2 ^ Z.of_nat j) with (Z.neg (pshl p j))
      by (rewrite <- !Pos2Z.opp_pos, pshl_Z; ring).
    cbn [binary_normalize]. pose proof (digits_le p 53 ltac:(lia)) as Hd.
    rewrite binary_round_pshl by lia. rewrite dyadic_finite by lia. f_equal. lia.
Qed.

Lemma dyadic_nonzero (z e : Z) :
  z <> 0 -> Z.abs z < 2 ^ 53 -> -1000 <= e <= 900 ->
  exists s p,
    cond_Zopp s (Z.pos p) = z /\ Z.pos (digits2_pos p) <= 53 /\
    binary_normalize prec emax z e false
    = S754_finite s (pshl p (Z.to_nat (53 - Z.pos (digits2_pos p))))
                  (e + Z.pos (digits2_pos p) - 53).
Proof.
  intros Hz Habs He. destruct z as [|p|p]; [congruence | |].
  - exists false, p. split; [reflexivity|]. split; [apply digits_le; lia|].
    apply dyadic_finite; lia.
  - exists true, p. split; [reflexivity|]. split; [apply digits_le; lia|].
    apply dyadic_finite; lia.
Qed.

Lemma cond_Zopp_pshl (s : bool) (p : positive) (j : nat) :
  cond_Zopp s (Z.pos (pshl p j)) = cond_Zopp s (Z.pos p) * 2 ^ Z.of_nat j.
Proof. rewrite pshl_Z. destruct s; simpl; lia. Qed.

(** Sums of numbers [z * 2^e] with one exponent [e] are exact while the
    integers stay below [2^53]. *)
Lemma dyadic_add (e z1 z2 : Z) :
  Z.abs z1 < 2 ^ 53 -> Z.abs z2 < 2 ^ 53 -> Z.abs (z1 + z2) < 2 ^ 53 ->
  -1000 <= e <= 900 ->
  SF64add (binary_normalize prec emax z1 e false) (binary_normalize prec emax z2 e false)
  = binary_normalize prec emax (z1 + z2) e false.
Proof.
  intros H1 H2 H12 He.
  destruct (Z.eq_dec z1 0) as [-> | Hz1].
  { rewrite Z.add_0_l. destruct (Z.eq_dec z2 0) as [-> | Hz2]; [reflexivity|].
    destruct (dyadic_nonzero z2 e Hz2 H2 He) as (s & p & _ & _ & ->). reflexivity. }
  destruct (Z.eq_dec z2 0) as [-> | Hz2].
  { rewrite Z.add_0_r.
    destruct (dyadic_nonzero z1 e Hz1 H1 He) as (s & p & _ & _ & ->). reflexivity. }
  destruct (dyadic_nonzero z1 e Hz1 H1 He) as (s1 & p1 & <- & Hd1 & ->).
  destruct (dyadic_nonzero z2 e Hz2 H2 He) as (s2 & p2 & <- & Hd2 & ->).
  unfold SF64add, SFadd.
  set (d1 := Z.pos (digits2_pos p1)) in *. set (d2 := Z.pos (digits2_pos p2)) in *.
  set (ez := Z.min (e + d1 - 53) (e + d2 - 53)).
  rewrite !shl_align_fst by lia. rewrite !pshl_pshl.
  replace (Z.to_nat (53 - d1) + Z.to_nat (e + d1 - 53 - ez))%nat with (Z.to_nat (e - ez)) by lia.
  replace (Z.to_nat (53 - d2) + Z.to_nat (e + d2 - 53 - ez))%nat with (Z.to_nat (e - ez)) by lia.
  rewrite !cond_Zopp_pshl, <- Z.mul_add_distr_r.
  replace ez with (e - Z.of_nat (Z.to_nat (e - ez))) at 2 by lia.
  apply dyadic_shift; assumption.
Qed.

Lemma dyadic_opp (e z : Z) :
  z <> 0 -> SFopp (binary_normalize prec emax z e false) = binary_normalize prec emax (- z) e false.
Proof.
  intros Hz. destruct z as [|p|p]; [congruence | |]; simpl; unfold binary_round;
    destruct (shl_align p e _) as [mz ez]; unfold binary_round_aux;
    destruct (shr_fexp prec emax (Z.pos mz) ez loc_Exact) as [r1 e1];
    destruct (shr_fexp prec emax _ e1 loc_Exact) as [r2 e2];
    destruct (shr_m r2); try reflexivity; destruct (e2 <=? emax - prec); reflexivity.
Qed.

Lemma dyadic_sub (e z1 z2 : Z) :
  Z.abs z1 < 2 ^ 53 -> Z.abs z2 < 2 ^ 53 -> Z.abs (z1 - z2) < 2 ^ 53 ->
  -1000 <= e <= 900 ->
  SF64sub (binary_normalize prec emax z1 e false) (binary_normalize prec emax z2 e false)
  = binary_normalize prec emax (z1 - z2) e false.
Proof.
  intros H1 H2 H12 He.
  destruct (Z.eq_dec z2 0) as [-> | Hz2].
  - rewrite Z.sub_0_r. destruct (Z.eq_dec z1 0) as [-> | Hz1]; [reflexivity|].
    destruct (dyadic_nonzero z1 e Hz1 H1 He) as (s & p & _ & _ & ->). reflexivity.
  - rewrite SFsub_add_opp, dyadic_opp by assumption.
    apply dyadic_add; try assumption; lia.
Qed.

(** ** Part II: the lag axis *)

Lemma Z2SF_dyadic (z : Z) : 0 <= z < 2 ^ 53 -> Z2SF z = binary_normalize prec emax z 0 false.
Proof.
  intros Hz. destruct z as [|p|p]; [reflexivity | | lia].
  cbn [Z2SF binary_normalize]. rewrite dyadic_finite by lia. unfold canon. f_equal.
Qed.

Lemma of_int_exact (z : Z) :
  Z.abs z < 2 ^ 53 -> Prim2SF (of_int z) = binary_normalize prec emax z 0 false.
Proof.
  intros Hz. unfold of_int. destruct (Z.ltb_spec z 0) as [Hneg | Hpos].
  - rewrite FloatAxioms.opp_spec, of_Z_exact, Z2SF_dyadic by lia.
    rewrite dyadic_opp by lia. f_equal. lia.
  - rewrite of_Z_exact, Z2SF_dyadic by lia. reflexivity.
Qed.

(** An integer is twice as many halves. *)
Lemma dyadic_halves (z : Z) :
  Z.abs z < 2 ^ 53 ->
  binary_normalize prec emax (2 * z) (-1) false = binary_normalize prec emax z 0 false.
Proof.
  intros Hz. rewrite <- (dyadic_shift z 0 1) by lia. f_equal. lia.
Qed.

(** [z / 2] on a Python int is the exact half. *)
Lemma int_truediv_2 (z : Z) :
  Z.abs z < 2 ^ 53 ->
  Prim2SF (int_truediv z 2) = binary_normalize prec emax z (-1) false.
Proof.
  intros Hz. unfold int_truediv. rewrite FloatAxioms.div_spec, !of_int_exact by (simpl; lia).
  change (binary_normalize prec emax 2 0 false) with (canon (pshl 1 1)).
  destruct z as [|q|q]; [reflexivity | |]; cbn [binary_normalize];
    pose proof (digits_le q 53 ltac:(lia)) as Hd;
    rewrite !dyadic_finite by lia;
    (rewrite SFdiv_pow2; [f_equal; lia | apply digits_canon; assumption | lia | lia | lia]).
Qed.

(** Dividing and multiplying by one change nothing. *)
Lemma dyadic_div_1 (z e : Z) :
  Z.abs z < 2 ^ 53 -> -900 <= e <= 900 ->
  SF64div (binary_normalize prec emax z e false) (Z2SF 1) = binary_normalize prec emax z e false.
Proof.
  intros Hz He. change (Z2SF 1) with (canon (pshl 1 0)).
  destruct z as [|q|q]; [reflexivity | |]; cbn [binary_normalize];
    pose proof (digits_le q 53 ltac:(lia)) as Hd;
    rewrite !dyadic_finite by lia;
    (rewrite SFdiv_pow2; [f_equal; lia | apply digits_canon; assumption | lia | lia | lia]).
Qed.

Lemma SFmul_1 (z : Z) :
  0 <= z < 2 ^ 53 -> SF64mul (Z2SF z) (Z2SF 1) = Z2SF z.
Proof.
  intros Hz. destruct z as [|p|p]; [reflexivity | | lia].
  pose proof (digits_le p 53 ltac:(lia)) as Hd.
  change (Z2SF 1) with (S754_finite false (pshl 1 52) (-52)).
  cbn [Z2SF]. unfold canon. cbv zeta. unfold SF64mul, SFmul. cbn [xorb].
  set (m := pshl p _).
  replace (m * pshl 1 52)%positive with (pshl m 52)
    by (apply Pos2Z.inj; rewrite Pos2Z.inj_mul, !pshl_Z; ring).
  rewrite binary_round_aux_exact; [f_equal; lia | apply digits_canon; assumption | lia].
Qed.

Lemma SFceil_integer (z : Z) : 0 <= z < 2 ^ 53 -> SFceil (Z2SF z) = Some z.
Proof.
  intros Hz. destruct z as [|p|p]; [reflexivity | | lia].
  pose proof (digits_le p 53 ltac:(lia)) as Hd.
  cbn [Z2SF]. unfold canon, SFceil. cbv zeta. f_equal.
  set (d := Z.pos (digits2_pos p)) in *.
  destruct (d - 53) as [|k|k] eqn:Hk; try lia.
  - replace (53 - d) with 0 by lia. simpl. lia.
  - cbn [cond_Zopp]. rewrite pshl_Z.
    replace (Z.of_nat (Z.to_nat (53 - d))) with (Z.pos k) by lia.
    rewrite <- Z.mul_opp_l, Z.div_mul by lia. lia.
Qed.

Lemma time_shift_spec (len_xcorr : nat) :
  Z.of_nat len_xcorr < 2 ^ 52 ->
  exists l,
    time_shift len_xcorr = inr l /\ length l = len_xcorr /\
    forall k, (k < len_xcorr)%nat ->
      l !! k = Some (int_truediv (2 * Z.of_nat k - Z.of_nat len_xcorr) 2).
Proof.
  intros HL. set (L := Z.of_nat len_xcorr) in *.
  assert (HL0 : 0 <= L) by (subst L; lia).
  unfold time_shift, np_arange. fold L.
  set (start := int_truediv (- L) 2). set (stop := int_truediv L 2).
  assert (Hstart : Prim2SF start = binary_normalize prec emax (- L) (-1) false)
    by (apply int_truediv_2; lia).
  assert (Hstop : Prim2SF stop = binary_normalize prec emax L (-1) false)
    by (apply int_truediv_2; lia).
  assert (Hone : Prim2SF 1 = binary_normalize prec emax 2 (-1) false) by reflexivity.
  assert (Hlen : Prim2SF ((stop - start) / 1) = Z2SF L).
  { rewrite FloatAxioms.div_spec, FloatAxioms.sub_spec, Hstart, Hstop.
    rewrite dyadic_sub by lia.
    change (Prim2SF 1) with (Z2SF 1). rewrite dyadic_div_1 by lia.
    replace (L - - L) with (2 * L) by lia.
    rewrite dyadic_halves by lia. symmetry. apply Z2SF_dyadic. lia. }
  assert (Hnext : Prim2SF (start + 1) = binary_normalize prec emax (2 - L) (-1) false).
  { rewrite FloatAxioms.add_spec, Hstart, Hone, dyadic_add by lia. f_equal. lia. }
  assert (Hdelta : (start + 1 - start)%float = 1%float).
  { apply Prim2SF_inj. rewrite FloatAxioms.sub_spec, Hnext, Hstart, Hone.
    rewrite dyadic_sub by lia. f_equal. lia. }
  change ((1 =? 0)%float) with false. cbv iota. rewrite Hlen, Hdelta.
  pose proof (SFceil_integer L ltac:(lia)) as Hceil.
  assert (Hrange : (L <? - 2 ^ 63) || (2 ^ 63 <? L) = false).
  { apply orb_false_iff. split; apply Z.ltb_ge; lia. }
  assert (Helems : forall k, (k < len_xcorr)%nat ->
            match k with
            | O => start
            | S O => (start + 1)%float
            | _ => (start + of_intp k * 1)%float
            end = int_truediv (2 * Z.of_nat k - L) 2).
  { intros k Hk. apply Prim2SF_inj. rewrite int_truediv_2 by lia.
    destruct k as [|[|k]].
    - rewrite Hstart. f_equal.
    - rewrite Hnext. f_equal.
    - rewrite FloatAxioms.add_spec, FloatAxioms.mul_spec, Hstart.
      unfold of_intp. rewrite of_Z_exact by lia.
      change (Prim2SF 1) with (Z2SF 1). rewrite SFmul_1 by lia.
      rewrite Z2SF_dyadic, <- dyadic_halves by lia.
      rewrite dyadic_add by lia. f_equal. lia. }
  destruct (Z2SF L) as [s|s| |s m e]; try (simpl in Hceil; discriminate);
    cbv iota; rewrite Hceil, Hrange; (eexists; split; [reflexivity|]; split;
      [rewrite length_fmap, length_seq; subst L; lia|]);
    intros k Hk; rewrite list_lookup_fmap, lookup_seq_lt by (subst L; lia);
    simpl; f_equal; apply Helems; assumption.
Qed.

(** X14. [time_shift_drift] has exactly [len(xcorr_drift)] entries, as many
    as the correlogram it is plotted against, and its entry [k] is
    [k - len(xcorr_drift)/2], without rounding. *)
Theorem lag_axis_entries (len_xcorr : nat) :
  Z.of_nat len_xcorr < 2 ^ 52 ->
  exists time_shift_drift,
    time_shift len_xcorr = inr time_shift_drift /\
    length time_shift_drift = len_xcorr /\
    forall k, (k < len_xcorr)%nat ->
      time_shift_drift !! k = Some (int_truediv (2 * Z.of_nat k - Z.of_nat len_xcorr) 2).
Proof. apply time_shift_spec. Qed.

Lemma lag_axis_entries_witness :
  exists time_shift_drift,
    time_shift 5 = inr time_shift_drift /\
    length time_shift_drift = 5%nat /\
    forall k, (k < 5)%nat ->
      time_shift_drift !! k = Some (int_truediv (2 * Z.of_nat k - Z.of_nat 5) 2).
Proof. apply (lag_axis_entries 5). reflexivity. Defined.

Lemma half_nonzero (z : Z) :
  z <> 0 -> Z.abs z < 2 ^ 53 -> (int_truediv z 2 =? 0)%float = false.
Proof.
  intros Hz Habs. rewrite FloatAxioms.eqb_spec, int_truediv_2 by assumption.
  destruct (dyadic_nonzero z (-1) Hz Habs ltac:(lia)) as (s & p & _ & _ & ->).
  change (Prim2SF 0) with (S754_zero false). destruct s; reflexivity.
Qed.

(** X15. When the correlogram has an odd number [2n - 1] of samples, the
    lag axis has no zero: every entry is a half-integer, and the middle
    entry, of index [n - 1], is [-0.5]. *)
Theorem lag_axis_misses_zero (n : nat) :
  (1 <= n)%nat -> Z.of_nat (2 * n - 1) < 2 ^ 52 ->
  exists time_shift_drift,
    time_shift (2 * n - 1) = inr time_shift_drift /\
    time_shift_drift !! (n - 1)%nat = Some (-0.5)%float /\
    forall x, x ∈ time_shift_drift -> (x =? 0)%float = false.
Proof.
  intros Hn Hlen.
  destruct (time_shift_spec (2 * n - 1) Hlen) as (l & Hrun & Hl & Hent).
  exists l. split; [assumption|]. split.
  - rewrite Hent by lia. f_equal.
    replace (2 * Z.of_nat (n - 1) - Z.of_nat (2 * n - 1)) with (-1) by lia.
    reflexivity.
  - intros x Hx. apply list_elem_of_lookup in Hx as [k Hk].
    assert (Hlt : (k < 2 * n - 1)%nat) by (rewrite <- Hl; eapply lookup_lt_Some; eassumption).
    rewrite Hent in Hk by assumption. injection Hk as <-.
    apply half_nonzero; lia.
Qed.

Lemma lag_axis_misses_zero_witness :
  exists time_shift_drift,
    time_shift (2 * 3 - 1) = inr time_shift_drift /\
    time_shift_drift !! (3 - 1)%nat = Some (-0.5)%float /\
    forall x, x ∈ time_shift_drift -> (x =? 0)%float = false.
Proof. apply (lag_axis_misses_zero 3); [lia | reflexivity]. Defined.


(** ** No overflow in the distances *)

Lemma SFbelow_mono (mu nu : Z) (x : spec_float) : mu <= nu -> SFbelow mu x -> SFbelow nu x.
Proof. destruct x; simpl; auto; lia. Qed.

Lemma SFbelow_finite (mu : Z) (x : spec_float) : SFbelow mu x -> SFfinite x = true.
Proof. destruct x; simpl; auto; contradiction. Qed.

Lemma shr_1_digits (r : shr_record) :
  0 <= shr_m r -> Zdigits2 (shr_m (shr_1 r)) <= Z.max 0 (Zdigits2 (shr_m r) - 1).
Proof. destruct r as [m b1 b2]. destruct m as [|[p|p|]|p]; simpl; lia. Qed.

Lemma iter_shr_1_digits (k : nat) (r : shr_record) :
  0 <= shr_m r ->
  Zdigits2 (shr_m (Nat.iter k shr_1 r)) <= Z.max 0 (Zdigits2 (shr_m r) - Z.of_nat k).
Proof.
  intros Hr. induction k as [|k IH]; [simpl; lia|].
  cbn [Nat.iter nat_rect].
  pose proof (iter_shr_1_range k r Hr) as Hk.
  pose proof (shr_1_digits (Nat.iter k shr_1 r)) as H1.
  unfold Nat.iter in *. lia.
Qed.

(** Shifting to the exponent of the format keeps the magnitude. *)
Lemma shr_fexp_digits (m e : Z) (l : location) (r : shr_record) (e' : Z) :
  0 <= m -> shr_fexp prec emax m e l = (r, e') ->
  Zdigits2 (shr_m r) + e' <= Z.max e' (Zdigits2 m + e).
Proof.
  intros Hm. unfold shr_fexp, shr.
  destruct (fexp prec emax (Zdigits2 m + e) - e) as [|t|t] eqn:Ht; intros [= <- <-].
  - rewrite shr_m_of_loc. lia.
  - rewrite iter_pos_nat.
    pose proof (iter_shr_1_digits (Pos.to_nat t) (shr_record_of_loc m l)) as H.
    rewrite shr_m_of_loc in H. lia.
  - rewrite shr_m_of_loc. lia.
Qed.

Lemma Zdigits2_bounds (m : Z) : 0 <= m -> 0 <= Zdigits2 m /\ m < 2 ^ Zdigits2 m.
Proof.
  destruct m as [|p|p]; simpl; [lia| |lia]. intros _. split; [lia|]. apply digits_bounds.
Qed.

Lemma Zdigits2_succ (a b : Z) : 0 <= a <= b + 1 -> 0 <= b -> Zdigits2 a <= Zdigits2 b + 1.
Proof.
  intros Ha Hb. destruct (Zdigits2_bounds b Hb) as [H0 H1].
  apply Zdigits2_range. rewrite Z.pow_add_r by lia. lia.
Qed.

(** Rounding a number below [2 ^ mu] gives a number below [2 ^ (mu + 1)],
    and no infinity while [mu] is in the range of the format. *)
Lemma binary_round_aux_below (s : bool) (m e : Z) (l : location) (mu : Z) :
  0 <= m -> Zdigits2 m + e <= mu -> e <= 971 -> -1073 <= mu <= 1023 ->
  SFbelow (mu + 1) (binary_round_aux prec emax s m e l).
Proof.
  intros Hm Hmu He Hr. unfold binary_round_aux.
  destruct (shr_fexp prec emax m e l) as [r1 e1] eqn:H1.
  pose proof (shr_fexp_digits _ _ _ _ _ Hm H1) as Hd1.
  apply shr_fexp_range in H1 as [H1 He1]; [|lia].
  pose proof (round_nearest_even_range (shr_m r1) (loc_of_shr_record r1)) as Hrn.
  pose proof (Zdigits2_succ _ (shr_m r1) ltac:(split; [|apply Hrn]; lia) ltac:(lia)) as Hd2.
  destruct (shr_fexp prec emax _ e1 loc_Exact) as [r2 e2] eqn:H2.
  pose proof (fun H => shr_fexp_digits _ _ _ _ _ H H2) as Hd3.
  specialize (Hd3 ltac:(lia)).
  apply shr_fexp_range in H2 as [H2 He2]; [|lia].
  destruct (Zdigits2_bounds m Hm) as [Hd0 _].
  unfold fexp, SpecFloat.emin, prec, emax in *.
  destruct (shr_m r2) as [|t|t] eqn:Ht; [exact I | | lia].
  replace (e2 <=? 1024 - 53) with true by (symmetry; apply Z.leb_le; lia).
  simpl in *. lia.
Qed.

Lemma binary_round_below (s : bool) (m : positive) (e mu : Z) :
  Z.pos (digits2_pos m) + e <= mu -> e <= 971 -> -1073 <= mu <= 1023 ->
  SFbelow (mu + 1) (binary_round prec emax s m e).
Proof.
  intros Hmu He Hr. unfold binary_round, shl_align.
  destruct (fexp prec emax (Z.pos (digits2_pos m) + e) - e) as [|t|t] eqn:Ht.
  1,2: apply binary_round_aux_below; simpl; lia.
  apply binary_round_aux_below; [lia| |lia|lia].
  rewrite pos_iter_pshl. cbn [Zdigits2]. rewrite digits_pshl. lia.
Qed.

Lemma binary_normalize_below (z e D mu : Z) :
  Z.abs z < 2 ^ D -> D + e <= mu -> e <= 971 -> -1073 <= mu <= 1023 ->
  SFbelow (mu + 1) (binary_normalize prec emax z e false).
Proof.
  intros Hz HD He Hr.
  destruct z as [|p|p]; [exact I| |]; cbn [binary_normalize];
    apply binary_round_below; try lia; pose proof (digits_le p D Hz); lia.
Qed.

Lemma aligned_below (m : positive) (ex ez D : Z) :
  ez <= ex -> Z.pos (digits2_pos m) + ex <= D + ez ->
  Z.pos (shl_align m ex ez).1 < 2 ^ D.
Proof.
  intros Hez HD. rewrite shl_align_fst by assumption.
  pose proof (digits_bounds (pshl m (Z.to_nat (ex - ez)))) as [_ Hb].
  rewrite digits_pshl in Hb.
  eapply Z.lt_le_trans; [exact Hb|]. apply Z.pow_le_mono_r; lia.
Qed.

(** A sum or a difference of numbers below [2 ^ mu] is below [2 ^ (mu + 2)]. *)
Lemma aligned_sum_below (sx sy : bool) (mx my : positive) (ex ey mu : Z) (op : Z -> Z -> Z) :
  (forall a b, Z.abs (op a b) <= Z.abs a + Z.abs b) ->
  Z.pos (digits2_pos mx) + ex <= mu -> Z.pos (digits2_pos my) + ey <= mu ->
  -1073 <= mu <= 972 ->
  SFbelow (mu + 2)
    (binary_normalize prec emax
       (op (cond_Zopp sx (Z.pos (shl_align mx ex (Z.min ex ey)).1))
           (cond_Zopp sy (Z.pos (shl_align my ey (Z.min ex ey)).1)))
       (Z.min ex ey) false).
Proof.
  intros Hop Hx Hy Hr. set (ez := Z.min ex ey).
  pose proof (aligned_below mx ex ez (mu - ez) ltac:(lia) ltac:(lia)) as Ha.
  pose proof (aligned_below my ey ez (mu - ez) ltac:(lia) ltac:(lia)) as Hb.
  replace (mu + 2) with (mu + 1 + 1) by lia.
  apply (binary_normalize_below _ _ (mu - ez + 1)); try lia.
  rewrite Z.pow_add_r by lia.
  eapply Z.le_lt_trans; [apply Hop|].
  destruct sx, sy; cbn [cond_Zopp]; lia.
Qed.

Lemma SFsub_below (x y : spec_float) (mu : Z) :
  SFbelow mu x -> SFbelow mu y -> -1073 <= mu <= 972 -> SFbelow (mu + 2) (SF64sub x y).
Proof.
  destruct x as [sx|sx| |sx mx ex], y as [sy|sy| |sy my ey]; simpl;
    try contradiction; intros Hx Hy Hr; try lia.
  - destruct sx, sy; exact I.
  - apply (aligned_sum_below sx sy mx my ex ey mu Z.sub); try assumption. intros; lia.
Qed.

Lemma SFadd_below (x y : spec_float) (mu : Z) :
  SFbelow mu x -> SFbelow mu y -> -1073 <= mu <= 972 -> SFbelow (mu + 2) (SF64add x y).
Proof.
  destruct x as [sx|sx| |sx mx ex], y as [sy|sy| |sy my ey]; simpl;
    try contradiction; intros Hx Hy Hr; try lia.
  - destruct sx, sy; exact I.
  - apply (aligned_sum_below sx sy mx my ex ey mu Z.add); try assumption. intros; lia.
Qed.

(** A product is below the product of the bounds, rounded. *)
Lemma SFmul_below (x y : spec_float) (mu nu : Z) :
  SFbelow mu x -> SFbelow nu y -> -1073 <= mu + nu <= 973 ->
  SFbelow (mu + nu + 1) (SF64mul x y).
Proof.
  destruct x as [sx|sx| |sx mx ex], y as [sy|sy| |sy my ey]; simpl;
    try contradiction; intros Hx Hy Hr; try exact I.
  unfold SF64mul, SFmul. apply binary_round_aux_below; try lia.
  cbn [Zdigits2].
  assert (Z.pos (digits2_pos (mx * my)) <= Z.pos (digits2_pos mx) + Z.pos (digits2_pos my));
    [|lia].
  apply digits_le. rewrite Z.pow_add_r by lia.
  pose proof (digits_bounds mx). pose proof (digits_bounds my). nia.
Qed.

Lemma sqrt_below (m q r k : Z) : 0 <= k -> m = q * q + r -> 0 <= r -> 0 <= q ->
  m < 2 ^ (2 * k) -> q < 2 ^ k.
Proof.
  intros Hk -> Hr Hq Hm.
  replace (2 * k) with (k + k) in Hm by lia. rewrite Z.pow_add_r in Hm by lia.
  pose proof (Z.pow_pos_nonneg 2 k ltac:(lia) Hk). nia.
Qed.

(** The square root of a number below [2 ^ (2 nu - 1)] is below [2 ^ (nu + 1)]. *)
Lemma SFsqrt_below (x : spec_float) (nu : Z) :
  sign_of x = Some false -> SFbelow (2 * nu - 1) x -> -1073 <= nu <= 1023 ->
  SFbelow (nu + 1) (SF64sqrt x).
Proof.
  destruct x as [s|s| |s m e]; simpl; try contradiction; intros [= ->] Hx Hr; [exact I|].
  unfold SF64sqrt, SFsqrt, SFsqrt_core_binary. cbn [Zdigits2].
  set (d := Z.pos (digits2_pos m)) in *.
  set (e' := Z.min (fexp prec emax (Z.div2 (d + e + 1))) (Z.div2 e)).
  assert (He' : 2 * e' <= e).
  { pose proof (Z.div2_div e). pose proof (Z.mul_div_le e 2 ltac:(lia)). lia. }
  set (m' := match e - 2 * e' with Z.pos _ => _ | _ => _ end).
  assert (Hm' : m' = Z.pos m * 2 ^ (e - 2 * e')).
  { subst m'. destruct (e - 2 * e') as [|t|t] eqn:Hs; [simpl; lia| |lia].
    apply Z.shiftl_mul_pow2. lia. }
  pose proof (Z.sqrtrem_spec m') as Hs.
  destruct (Z.sqrtrem m') as [q r].
  pose proof (digits_bounds m) as [_ Hb]. fold d in Hb.
  pose proof (Z.pow_pos_nonneg 2 (e - 2 * e') ltac:(lia) ltac:(lia)) as Hp.
  specialize (Hs ltac:(nia)). destruct Hs as [Hs Hrr].
  assert (Hk : 0 <= nu - e').
  { unfold d in *. lia. }
  assert (Hq : q < 2 ^ (nu - e')).
  { apply (sqrt_below m' q r); try lia.
    rewrite Hm'. apply Z.lt_le_trans with (2 ^ d * 2 ^ (e - 2 * e')); [nia|].
    rewrite <- Z.pow_add_r by (unfold d; lia). apply Z.pow_le_mono_r; lia. }
  apply binary_round_aux_below; try lia.
  - pose proof (Zdigits2_range q (nu - e') ltac:(lia)). lia.
  - subst e'. rewrite Z.div2_div. unfold fexp, SpecFloat.emin, prec, emax, d in *.
    pose proof (Z.div_le_upper_bound (Z.pos (digits2_pos m) + e + 1) 2 nu ltac:(lia)). lia.
Qed.

(** The quotient of two integers below [2 ^ 53] is below [2 ^ 54]. *)
Lemma SFdiv_exact_below (a b : Z) :
  0 <= a < 2 ^ 53 -> 0 < b < 2 ^ 53 -> SFbelow 54 (SF64div (Z2SF a) (Z2SF b)).
Proof.
  intros Ha Hb. destruct b as [|q|q]; try lia.
  destruct a as [|p|p]; try lia; [exact I|].
  pose proof (digits_le p 53 ltac:(lia)) as Hp.
  pose proof (digits_le q 53 ltac:(lia)) as Hq.
  pose proof (digits_canon p Hp) as Hdp. pose proof (digits_canon q Hq) as Hdq.
  cbn [Z2SF]. unfold canon. cbv zeta.
  set (mp := pshl p _) in *. set (mq := pshl q _) in *.
  set (ep := Z.pos (digits2_pos p) - 53). set (eq' := Z.pos (digits2_pos q) - 53).
  unfold SF64div, SFdiv, SFdiv_core_binary. cbn [Zdigits2]. rewrite Hdp, Hdq.
  rewrite fexp_normal by lia.
  replace (Z.min (53 + ep - (53 + eq') - 53) (ep - eq')) with (ep - eq' - 53) by lia.
  replace (ep - eq' - (ep - eq' - 53)) with 53 by lia.
  pose proof (Z_div_mod (Z.shiftl (Z.pos mp) 53) (Z.pos mq) ltac:(lia)) as Hdm.
  destruct (Z.div_eucl (Z.shiftl (Z.pos mp) 53) (Z.pos mq)) as [qq rr].
  destruct Hdm as [Hdm Hrr].
  pose proof (digits_bounds mp) as Hmp. rewrite Hdp in Hmp.
  pose proof (digits_bounds mq) as Hmq. rewrite Hdq in Hmq.
  rewrite Z.shiftl_mul_pow2 in Hdm by lia.
  change (53 - 1) with 52 in *.
  assert (Hqq : 0 <= qq < 2 ^ 54).
  { change (2 ^ 54) with 18014398509481984.
    change (2 ^ 53) with 9007199254740992 in *.
    change (2 ^ 52) with 4503599627370496 in *. nia. }
  pose proof (Zdigits2_range qq 54 Hqq) as Hd.
  apply (binary_round_aux_below _ _ _ _ 53); lia.
Qed.

Lemma mean_of_below (s n : nat) :
  Z.of_nat s < 2 ^ 53 -> (0 < n)%nat -> Z.of_nat n < 2 ^ 53 -> below 54 (mean_of s n).
Proof.
  intros Hs Hn Hn'. unfold below, mean_of.
  rewrite FloatAxioms.div_spec, !of_Z_exact by lia.
  apply SFdiv_exact_below; lia.
Qed.

Lemma below_finite (mu : Z) (x : float) : below mu x -> finite64 x = true.
Proof. apply SFbelow_finite. Qed.

(** The distance of two points whose coordinates are below [2 ^ 54] is a
    finite number. *)
Lemma euclid_below (xi xj yi yj : float) :
  below 54 xi -> below 54 xj -> below 54 yi -> below 54 yj ->
  below 59 (euclid xi xj yi yj).
Proof.
  intros Hxi Hxj Hyi Hyj. unfold below, euclid, pow2.
  rewrite FloatAxioms.sqrt_spec, FloatAxioms.add_spec, !FloatAxioms.mul_spec,
    !FloatAxioms.sub_spec.
  apply (SFsqrt_below _ 58); [| |lia].
  - apply SFadd_nonneg; apply SFmul_self_sign, SFsub_finite_sign;
      eapply SFbelow_finite; eassumption.
  - apply (SFadd_below _ _ 113); [| |lia];
      apply (SFmul_below _ _ 56 56); try lia; apply (SFsub_below _ _ 54); (assumption || lia).
Qed.

(** X16. For valid masks no distance overflows: every entry of the distance
    matrix, and so every entry of [distance_vector], is a finite number,
    neither NaN nor an infinity. *)
Theorem distances_finite (rois : list mask) :
  Forall valid_mask rois ->
  exists loc_x loc_y distance v,
    step6 rois = Ok (loc_x, loc_y, distance) /\
    distance_vector rois = Ok v /\
    (forall i j, (i < length rois)%nat -> (j < length rois)%nat ->
       exists dij, entry distance i j = Some dij /\ finite64 dij = true) /\
    Forall (fun x => finite64 x = true) v.
Proof.
  intros Hvalid.
  destruct (step6_runs rois) as (lx & ly & d & _ & _ & H6 & Hlx & Hly & Hsh & Hent & Hval).
  destruct (flatten_upper_spec (length rois) d Hsh) as (v & Hv & Hall).
  exists lx, ly, d, v. split; [assumption|]. split.
  { unfold distance_vector. rewrite H6. exact Hv. }
  assert (Hbelow : forall i x y, lx !! i = Some x -> ly !! i = Some y ->
            below 54 x /\ below 54 y).
  { intros i x y Hx Hy.
    destruct (lookup_lt_is_Some_2 rois i) as [m Him];
      [rewrite <- Hlx; eapply lookup_lt_Some; eassumption|].
    destruct (Hval i m Him) as [Hxi Hyi].
    assert (x = np_mean (np_where m).2) as -> by congruence.
    assert (y = np_mean (np_where m).1) as -> by congruence.
    rewrite Forall_lookup in Hvalid. destruct (Hvalid i m Him) as [Hne Hfits].
    pose proof (nonempty_count m Hne) as Hcount.
    rewrite np_mean_rows, np_mean_cols by assumption.
    destruct Hfits as (Hc & Hr & Hc'). split; apply mean_of_below; assumption. }
  assert (Hfin : forall i j, (i < length rois)%nat -> (j < length rois)%nat ->
            exists dij, entry d i j = Some dij /\ finite64 dij = true).
  { intros i j Hi Hj.
    read_at lx i xi Hxi. read_at lx j xj Hxj.
    read_at ly i yi Hyi. read_at ly j yj Hyj.
    exists (euclid xi xj yi yj). split; [apply Hent; assumption|].
    destruct (Hbelow i xi yi Hxi Hyi). destruct (Hbelow j xj yj Hxj Hyj).
    apply (below_finite 59), euclid_below; assumption. }
  split; [exact Hfin|].
  apply Forall_lookup. intros k x Hk.
  destruct (Forall2_lookup_r _ _ _ _ _ Hall Hk) as ([i j] & Hp & Hx). simpl in Hx.
  assert (Hij : (i < j < length rois)%nat).
  { apply elem_of_upper_pairs. eapply list_elem_of_lookup_2; eassumption. }
  destruct (Hfin i j) as (dij & Hd & Hf); [lia | lia |]. congruence.
Qed.

Lemma distances_finite_witness :
  exists loc_x loc_y distance v,
    step6 [pixel_mask 3 3 [(0, 0); (1, 2)]; pixel_mask 3 3 [(2, 1)]]%nat
    = Ok (loc_x, loc_y, distance) /\
    distance_vector [pixel_mask 3 3 [(0, 0); (1, 2)]; pixel_mask 3 3 [(2, 1)]]%nat = Ok v /\
    (forall i j, (i < 2)%nat -> (j < 2)%nat ->
       exists dij, entry distance i j = Some dij /\ finite64 dij = true) /\
    Forall (fun x => finite64 x = true) v.
Proof.
  apply (distances_finite [pixel_mask 3 3 [(0, 0); (1, 2)]; pixel_mask 3 3 [(2, 1)]]%nat).
  repeat constructor.
  - exists 0%nat, 0%nat. reflexivity.
  - exists 2%nat, 1%nat. reflexivity.
Defined.
